(** * PasteHTML: the markup filter of [src/__init__.py]

    A shallow embedding of the add-on's sanitizer: the whitelist tables, the
    style regular expression, the three [HTMLParser] callbacks of
    [NonFormatTagCleaner], [downloadMedia], [SaveImageToMedia], [cleanTag]
    and [onHtmlCopy].

    Conventions.
    - A Python [str] is a [string]; its characters are the code points below
      256.  Bytes objects are [string] too.
    - A Python [set] of names is a duplicate-free list queried with [mem].
    - A Python [dict] is an association list in insertion order ([dict_set]
      overwrites in place and appends new keys, as CPython's dict does), since
      the serialisation of attributes and styles follows that order.
    - An exception is a [Raise]; the handlers live in the [result] monad.
    - [html.parser.HTMLParser] is Python's own tokenizer and is not part of
      the repository: the model starts from the callbacks it makes, as a list
      of [token]s.  An attribute written without a value reaches
      [handle_starttag] with the value [None].
    - The network, the file system, Qt and Anki's media collection are an
      [Env] of oracles: the environment as it is at one moment.  Reading a
      file and sending a request observe it; [SaveImageToMedia] changes it
      (a temporary file is written, the media collection grows), so a run
      of the filter lives in a [World], which gives the environment after
      the images saved so far. *)

From Stdlib Require Import Bool List String Ascii ZArith Lia DecimalString.
Import ListNotations.
Open Scope string_scope.
Open Scope Z_scope.

Set Implicit Arguments.
Set Warnings "-register-all".

(** ** Exceptions and results *)

Inductive exn : Type :=
| TypeError        (* re.findall(None) *)
| AttributeError   (* None.replace, None.startswith *)
| OtherError.      (* anything a library call lets through *)

Inductive result (A : Type) : Type :=
| Ok (a : A)
| Raise (e : exn).

Arguments Ok {A} a.
Arguments Raise {A} e.

Definition bind {A B : Type} (r : result A) (k : A -> result B) : result B :=
  match r with
  | Ok a => k a
  | Raise e => Raise e
  end.

Notation "x <- r ;; k" := (bind r (fun x => k))
  (at level 61, r at next level, right associativity).
Notation "' p <- r ;; k" := (bind r (fun x => let p := x in k))
  (at level 61, p pattern, r at next level, right associativity).

(** ** Sets of names and insertion-ordered dictionaries *)

Definition mem (x : string) (s : list string) : bool :=
  existsb (String.eqb x) s.

Arguments mem : simpl never.

Section Dict.
Variable V : Type.

Definition dict := list (string * V).

Fixpoint dict_get (k : string) (d : dict) : option V :=
  match d with
  | [] => None
  | (k', v) :: d' => if String.eqb k k' then Some v else dict_get k d'
  end.

(* d[k] = v *)
Fixpoint dict_set (k : string) (v : V) (d : dict) : dict :=
  match d with
  | [] => [(k, v)]
  | (k', v') :: d' =>
      if String.eqb k k' then (k', v) :: d' else (k', v') :: dict_set k v d'
  end.

(* del d[k] *)
Fixpoint dict_del (k : string) (d : dict) : dict :=
  match d with
  | [] => []
  | (k', v') :: d' =>
      if String.eqb k k' then d' else (k', v') :: dict_del k d'
  end.

Definition keys (d : dict) : list string := map fst d.
End Dict.

Arguments dict_get {V} k d.
Arguments dict_set {V} k v d.
Arguments dict_del {V} k d.
Arguments keys {V} d.

(** ** The whitelist tables *)

(* Tags that don't have ending tags. *)
Definition _voidElements : list string :=
  ["area"; "base"; "basefont"; "bgsound"; "br"; "col";
   "command"; "embed"; "frame"; "hr"; "image"; "img"; "input"; "isindex";
   "keygen"; "link"; "menuitem"; "meta"; "nextid"; "param"; "source";
   "track"; "wbr"].

(* Tags that should be ignored. *)
Definition _ignoredTags : list string := ["html"; "body"].

(* Tags that should be allowed; the module ends with
   [_allowedTags |= _ignoredTags], which is the last line here. *)
Definition _allowedTags : list string :=
  ["p"; "h1"; "h2"; "h3"; "h4"; "h5"; "blockquote"; "pre";
   "img"; "a"; "span"; "br"; "code";
   "b"; "em"; "i"; "u"; "strong";
   "ul"; "ol"; "li";
   "div"; "table"; "tr"; "td"; "thead"; "th"; "tbody"]
  ++ _ignoredTags.

Definition _allowedAttributes : list string :=
  ["style"; "src"; "alt"; "href"; "title"; "colspan"; "rowspan"].

Definition _allowedStyles : list string :=
  ["font-weight"; "color"; "background-color"; "font-style";
   "text-align"; "valign";
   "background"].

Definition _overrideStyles : dict (dict string) :=
  [("table", [("box-sizing", "border-box");
              ("width", "100%");
              ("margin", ".5em");
              ("border-collapse", "collapse");
              ("outline", "1px solid black")]);
   ("th", [("position", "relative");
           ("border", "1px solid black");
           ("padding", ".4em");
           ("font-size", "1.2em")]);
   ("td", [("position", "relative");
           ("border", "1px solid black");
           ("padding", ".2em")]);
   ("div", [("padding", ".2em")])].

(** ** Strings *)

Definition newline : ascii := "010"%char.

Definition is_newline (c : ascii) : bool := Ascii.eqb c newline.

(* c' == c *)
Definition is_char (c c' : ascii) : bool := Ascii.eqb c' c.

(* str.isspace on one code point below 256, which is what \s tests. *)
Definition is_space (c : ascii) : bool :=
  let n := N_of_ascii c in
  ((9 <=? n) && (n <=? 13) || (28 <=? n) && (n <=? 32)
   || (n =? 133) || (n =? 160))%N.

(* str.join *)
Fixpoint join (sep : string) (l : list string) : string :=
  match l with
  | [] => ""
  | [x] => x
  | x :: l' => x ++ sep ++ join sep l'
  end.

(* url.startswith(p) *)
Definition startswith (p s : string) : bool := String.prefix p s.

(* s[n:] *)
Fixpoint drop (n : nat) (s : string) : string :=
  match n, s with
  | O, _ => s
  | S n', String _ s' => drop n' s'
  | S _, EmptyString => EmptyString
  end.

(** ** [cgi.escape(s)], called without [quote]: the double quote stays.
    The three [str.replace] calls, ampersand first, amount to this map over
    the characters. *)

Fixpoint cgi_escape (s : string) : string :=
  match s with
  | EmptyString => EmptyString
  | String c s' =>
      (if Ascii.eqb c "&" then "&amp;"
       else if Ascii.eqb c "<" then "&lt;"
       else if Ascii.eqb c ">" then "&gt;"
       else String c EmptyString) ++ cgi_escape s'
  end.

(** ** [_styleRegex = re.compile('(.+?) *: *(.+?);')] and its [findall]

    The matcher follows the backtracking order of [re]: a lazy group tries
    the shortest text first, a starred space the longest run first; [.] is
    any character but a newline. *)

(* (.+?); at [s]: the shortest non-empty text before a semicolon. *)
Fixpoint lazy_value (s : string) : option (string * string) :=
  match s with
  | EmptyString => None
  | String c s' =>
      if is_newline c then None
      else match s' with
           | EmptyString => None
           | String c' rest =>
               if is_char ";" c' then Some (String c EmptyString, rest)
               else match lazy_value s' with
                    | Some (v, rest') => Some (String c v, rest')
                    | None => None
                    end
           end
  end.

(* ' *(.+?);' at [s]: as many spaces as still let the value match. *)
Fixpoint spaces_value (s : string) : option (string * string) :=
  match s with
  | EmptyString => None
  | String c s' =>
      if is_char " " c then
        match spaces_value s' with
        | Some r => Some r
        | None => lazy_value s
        end
      else lazy_value s
  end.

Fixpoint skip_spaces (s : string) : string :=
  match s with
  | EmptyString => EmptyString
  | String c s' => if is_char " " c then skip_spaces s' else s
  end.

(* ' *: *(.+?);' at [s]: a space cannot stand for the colon, so the first
   run of spaces is taken whole. *)
Definition colon_value (s : string) : option (string * string) :=
  match skip_spaces s with
  | EmptyString => None
  | String c s' => if is_char ":" c then spaces_value s' else None
  end.

(* The whole pattern at [s]: the shortest key after which the rest matches. *)
Fixpoint match_here (s : string) : option (string * string * string) :=
  match s with
  | EmptyString => None
  | String c s' =>
      if is_newline c then None
      else match colon_value s' with
           | Some (v, rest) => Some (String c EmptyString, v, rest)
           | None => match match_here s' with
                     | Some (k, v, rest) => Some (String c k, v, rest)
                     | None => None
                     end
           end
  end.

(* findall: leftmost matches, each search resuming where the last match
   ended.  [fuel] bounds the number of positions visited. *)
Fixpoint findall_from (fuel : nat) (s : string) : list (string * string) :=
  match fuel with
  | O => []
  | S fuel' =>
      match s with
      | EmptyString => []
      | String _ s' =>
          match match_here s with
          | Some (k, v, rest) => (k, v) :: findall_from fuel' rest
          | None => findall_from fuel' s'
          end
      end
  end.

Definition _styleRegex_findall (s : string) : list (string * string) :=
  findall_from (S (String.length s)) s.

(** ** [re.sub('^\s*\n', '', data, flags=re.M)] *)

(* \s*\n at [s], greedy: what follows the last newline of the leading run
   of white space. *)
Fixpoint blank_line (s : string) : option string :=
  match s with
  | EmptyString => None
  | String c s' =>
      if is_space c then
        match blank_line s' with
        | Some rest => Some rest
        | None => if is_newline c then Some s' else None
        end
      else None
  end.

(* [bol]: the position is the start of the text or follows a newline. *)
Fixpoint strip_blank_lines (fuel : nat) (bol : bool) (s : string) : string :=
  match fuel with
  | O => s
  | S fuel' =>
      match (if bol then blank_line s else None) with
      | Some rest => strip_blank_lines fuel' true rest
      | None =>
          match s with
          | EmptyString => EmptyString
          | String c s' => String c (strip_blank_lines fuel' (is_newline c) s')
          end
      end
  end.

Definition re_sub_blank_lines (data : string) : string :=
  strip_blank_lines (S (String.length data)) true data.

(** ** The environment: file system, network, Qt, the media collection *)

(* open(url, 'rb').read() *)
Inductive opened : Type :=
| OSError                  (* the except clause of the file branch *)
| Content (data : string)  (* the bytes of the file *)
| Failure (e : exn).       (* any other exception: no clause catches it *)

(* urllib.request.urlopen(url) *)
Inductive fetched : Type :=
| URLError                 (* urllib.error.URLError: the except clause *)
| Answered                 (* a response object *)
| Crash (e : exn).         (* any other exception: no clause catches it *)

(* The environment at one moment. *)
Record Env : Type := {
  (* open(path, 'rb').read() *)
  env_read : string -> opened;
  (* urllib.request.urlopen(url) *)
  env_urlopen : string -> fetched;
  (* editor.mw.pm.profile.get('pastePNG', False) *)
  env_pastePNG : bool;
  (* QImage.fromData(imageData).cacheKey() *)
  env_cacheKey : string -> Z;
  (* anki.utils.namedtmp(name): the path of that name in the temporary
     directory *)
  env_namedtmp : string -> string;
  (* im.save(path, None, quality) for the image made from imageData, then
     os.path.exists(path) *)
  env_save : string -> string -> Z -> bool;
  (* editor.mw.col.media.addFile(path) *)
  env_addFile : string -> string
}.

(* The environment after the images that were passed to SaveImageToMedia
   so far, oldest first. *)
Definition World : Type := list string -> Env.

(* re.match(r'^/[A-Za-z]:\\', url) *)
Definition is_alpha (c : ascii) : bool :=
  let n := N_of_ascii c in
  ((65 <=? n) && (n <=? 90) || (97 <=? n) && (n <=? 122))%N.

Definition windows_path (url : string) : bool :=
  match url with
  | String "/" (String c (String ":" (String "\" _))) => is_alpha c
  | _ => false
  end.

(* The file branch: the url as it is after the branch (reassigned before
   [open]) and what [open] and [read] did; None when the branch is not
   taken. *)
Definition local_read (env : Env) (url : string) : string * option opened :=
  if startswith "file://" url then
    let url1 := drop 7 url in
    let url2 := if windows_path url1 then drop 1 url1 else url1 in
    (url2, Some (env_read env url2))
  else (url, None).

(* The try block of the download.  When the request is answered,
   [response.info()] is an [email.message.Message], which has no
   [getheader]: the first line after [urlopen] raises AttributeError, which
   no clause catches, so the chunk loop is never reached. *)
Definition request (env : Env) (url : string) : result (option string) :=
  match env_urlopen env url with
  | URLError => Ok None
  | Answered => Raise AttributeError
  | Crash e => Raise e
  end.

Definition downloadMedia (env : Env) (url : string) : result (option string) :=
  match local_read env url with
  | (_, Some (Content data)) => Ok (Some data)
  | (_, Some (Failure e)) => Raise e
  | (url', _) => request env url'
  end.

(* '%d' % n *)
Definition decimal (n : Z) : string := NilZero.string_of_int (Z.to_int n).

Definition SaveImageToMedia (env : Env) (imageData : string) : string :=
  let uname :=
    env_namedtmp env ("pasteHTML-" ++ decimal (env_cacheKey env imageData)) in
  let (ext, written) :=
    if env_pastePNG env
    then (".png", env_save env imageData (uname ++ ".png") 50)
    else (".jpg", env_save env imageData (uname ++ ".jpg") 80) in
  (* invalid image? *)
  if written then env_addFile env (uname ++ ext) else "".

(** ** The parser object *)

Definition attr : Type := string * option string.

Inductive token : Type :=
| StartTag (tag : string) (attrs : list attr)
| EndTag (tag : string)
| Data (data : string).

Record state : Type := {
  nonAllowedTagCountInStack : Z;
  output : list string;
  tagStack : list string;      (* the head is the top, tagStack[-1] *)
  parseError : bool;
  tooltips : list string;      (* the messages passed to aqt.utils.tooltip *)
  saved : list string          (* the images passed to SaveImageToMedia
                                  through self.editor *)
}.

Definition init : state :=
  {| nonAllowedTagCountInStack := 0; output := []; tagStack := [];
     parseError := false; tooltips := []; saved := [] |}.

Definition writeData (st : state) (data : string) : state :=
  if nonAllowedTagCountInStack st =? 0 then
    {| nonAllowedTagCountInStack := nonAllowedTagCountInStack st;
       output := output st ++ [data];
       tagStack := tagStack st;
       parseError := parseError st;
       tooltips := tooltips st;
       saved := saved st |}
  else st.

Definition dquote : string := String "034"%char EmptyString.

(* tagStack.append(tag), and the counter of tags outside the whitelist *)
Definition push_tag (st : state) (tag : string) : state :=
  if mem tag _voidElements then st
  else
    {| nonAllowedTagCountInStack :=
         if mem tag _allowedTags then nonAllowedTagCountInStack st
         else nonAllowedTagCountInStack st + 1;
       output := output st;
       tagStack := tag :: tagStack st;
       parseError := parseError st;
       tooltips := tooltips st;
       saved := saved st |}.

(* # Parse attributes *)
Definition parse_attributes (attrs : list attr) : dict (option string) :=
  fold_left
    (fun d (a : attr) =>
       if mem (fst a) _allowedAttributes then dict_set (fst a) (snd a) d else d)
    attrs [("style", Some "")].

(* # Parse styles *)
Definition parse_styles (style : string) : dict string :=
  fold_left
    (fun d (kv : string * string) =>
       if mem (fst kv) _allowedStyles then dict_set (fst kv) (snd kv) d else d)
    (_styleRegex_findall style) [].

(* for k, v in items: d[k] = v *)
Definition update (d items : dict string) : dict string :=
  fold_left (fun d (kv : string * string) => dict_set (fst kv) (snd kv) d) items d.

(* # Override styles *)
Definition override_styles (tag : string) (styleDict : dict string) : dict string :=
  match dict_get tag _overrideStyles with
  | Some table => update styleDict table
  | None => styleDict
  end.

Definition style_string (styleDict : dict string) : string :=
  String.concat ""
    (map (fun kv : string * string => fst kv ++ ":" ++ snd kv ++ ";") styleDict).

Definition styled (attrDict : dict (option string)) (styleDict : dict string)
  : dict (option string) :=
  match styleDict with
  | [] => dict_del "style" attrDict
  | _ :: _ => dict_set "style" (Some (style_string styleDict)) attrDict
  end.

(* The attribute dictionary after the style step; [findall] of a [style]
   attribute that has no value is a TypeError. *)
Definition sanitize_attributes (tag : string) (attrs : list attr)
  : result (dict (option string)) :=
  let attrDict := parse_attributes attrs in
  match dict_get "style" attrDict with
  | Some (Some style) =>
      Ok (styled attrDict (override_styles tag (parse_styles style)))
  | _ => Raise TypeError
  end.

(* # Special cure for images: the dictionary, the tooltip, if any, and the
   image passed to SaveImageToMedia, if any *)
Definition cure_image (env : Env) (tag : string) (attrDict : dict (option string))
  : result (dict (option string) * list string * list string) :=
  if String.eqb tag "img" then
    match dict_get "src" attrDict with
    | None => Ok (attrDict, [], [])
    | Some None => Raise AttributeError
    | Some (Some imageUrl) =>
        imageData <- downloadMedia env imageUrl ;;
        match imageData with
        | Some (String c data) =>
            Ok (dict_set "src"
                  (Some (SaveImageToMedia env (String c data))) attrDict,
                [], [String c data])
        | _ => Ok (attrDict, ["Failed to download " ++ imageUrl], [])
        end
    end
  else Ok (attrDict, [], []).

(* k, an equals sign and cgi.escape(v) between double quotes, per item *)
Fixpoint attr_items (attrDict : dict (option string)) : result (list string) :=
  match attrDict with
  | [] => Ok []
  | (k, None) :: _ => Raise AttributeError
  | (k, Some v) :: d =>
      l <- attr_items d ;;
      Ok ((k ++ "=" ++ dquote ++ cgi_escape v ++ dquote) :: l)
  end.

Definition attr_string (attrDict : dict (option string)) : result string :=
  match attrDict with
  | [] => Ok ""
  | _ :: _ => l <- attr_items attrDict ;; Ok (" " ++ join " " l)
  end.

(* The text of a start tag, the tooltips raised and the images saved on
   the way. *)
Definition starttag_text (env : Env) (tag : string) (attrs : list attr)
  : result (string * list string * list string) :=
  attrDict <- sanitize_attributes tag attrs ;;
  ' (attrDict', tips, images) <- cure_image env tag attrDict ;;
  attrStr <- attr_string attrDict' ;;
  Ok ("<" ++ tag ++ attrStr ++ ">", tips, images).

Definition notify (st : state) (tips images : list string) : state :=
  {| nonAllowedTagCountInStack := nonAllowedTagCountInStack st;
     output := output st;
     tagStack := tagStack st;
     parseError := parseError st;
     tooltips := tooltips st ++ tips;
     saved := saved st ++ images |}.

(* The environment is the one the world has come to when the tag arrives. *)
Definition handle_starttag (world : World) (st : state) (tag : string)
           (attrs : list attr) : result state :=
  let st1 := push_tag st tag in
  if mem tag _ignoredTags then Ok st1
  else
    ' (text, tips, images) <- starttag_text (world (saved st)) tag attrs ;;
    Ok (writeData (notify st1 tips images) text).

(* while self.tagStack and self.tagStack[-1] != tag: pop, parseError = True *)
Fixpoint pop_until (tag : string) (stack : list string) (err : bool)
  : list string * bool :=
  match stack with
  | [] => ([], err)
  | top :: below =>
      if String.eqb top tag then (stack, err) else pop_until tag below true
  end.

Definition handle_endtag (st : state) (tag : string) : state :=
  if mem tag _voidElements then st
  else
    let (stack, err) := pop_until tag (tagStack st) (parseError st) in
    let st1 :=
      {| nonAllowedTagCountInStack := nonAllowedTagCountInStack st;
         output := output st;
         tagStack := tl stack;          (* if self.tagStack: pop() *)
         parseError := err;
         tooltips := tooltips st;
       saved := saved st |} in
    if mem tag _allowedTags then
      if mem tag _ignoredTags then st1
      else writeData st1 ("</" ++ tag ++ ">")
    else
      {| nonAllowedTagCountInStack := nonAllowedTagCountInStack st1 - 1;
         output := output st1;
         tagStack := tagStack st1;
         parseError := parseError st1;
         tooltips := tooltips st1;
       saved := saved st1 |}.

Definition handle_data (st : state) (data : string) : state :=
  writeData st data.

Definition flush (st : state) : string := String.concat "" (output st).

(* One callback of the tokenizer. *)
Definition handle (world : World) (st : state) (t : token) : result state :=
  match t with
  | StartTag tag attrs => handle_starttag world st tag attrs
  | EndTag tag => Ok (handle_endtag st tag)
  | Data data => Ok (handle_data st data)
  end.

(* parser.feed(data), as the callbacks it makes in order *)
Fixpoint feed (world : World) (toks : list token) (st : state) : result state :=
  match toks with
  | [] => Ok st
  | t :: toks' => st' <- handle world st t ;; feed world toks' st'
  end.

(* cleanTag on the tokens of [data] *)
Definition clean_tokens (world : World) (toks : list token) : result string :=
  st <- feed world toks init ;;
  Ok (re_sub_blank_lines (flush st)).

Section CleanTag.
(* html.parser's tokenizer: the callbacks made for a text *)
Variable tokenize : string -> list token.

Definition cleanTag (world : World) (data : string) : result string :=
  clean_tokens world (tokenize data).
End CleanTag.

(* An environment in which no file can be opened, every request ends in
   URLError and no image can be written; and the world that stays so. *)
Definition unplugged : Env :=
  {| env_read := fun _ => OSError;
     env_urlopen := fun _ => URLError;
     env_pastePNG := false;
     env_cacheKey := fun _ => 0;
     env_namedtmp := fun name => name;
     env_save := fun _ _ _ => false;
     env_addFile := fun path => path |}.

Definition offline : World := fun _ => unplugged.

(** ** Well-formed documents

    A balanced document as a tree: text, a void element (a start tag alone)
    or an element with children between its start and end tags. *)

Inductive node : Type :=
| Text (data : string)
| Void (tag : string) (attrs : list attr)
| Elem (tag : string) (attrs : list attr) (kids : list node).

(* Induction over a tree and, inside it, over the children. *)
Section NodeInduction.
Variable P : node -> Prop.
Hypothesis HText : forall data, P (Text data).
Hypothesis HVoid : forall tag attrs, P (Void tag attrs).
Hypothesis HElem : forall tag attrs kids, Forall P kids -> P (Elem tag attrs kids).

Fixpoint node_induction (n : node) : P n :=
  match n with
  | Text data => HText data
  | Void tag attrs => HVoid tag attrs
  | Elem tag attrs kids =>
      HElem tag attrs
        ((fix all (l : list node) : Forall P l :=
            match l with
            | [] => Forall_nil P
            | n' :: l' => Forall_cons n' (node_induction n') (all l')
            end) kids)
  end.
End NodeInduction.

(* The callbacks the tokenizer makes for a tree. *)
Fixpoint events (n : node) : list token :=
  match n with
  | Text data => [Data data]
  | Void tag attrs => [StartTag tag attrs]
  | Elem tag attrs kids =>
      StartTag tag attrs :: flat_map events kids ++ [EndTag tag]
  end.

(* Void tags have no children and no end tag, other tags have both. *)
Fixpoint balanced (n : node) : bool :=
  match n with
  | Text _ => true
  | Void tag _ => mem tag _voidElements
  | Elem tag _ kids => negb (mem tag _voidElements) && forallb balanced kids
  end.

(* Every value of the dictionary is a string, none is None. *)
Definition all_valued (d : dict (option string)) : bool :=
  forallb (fun kv : string * option string =>
             match snd kv with Some _ => true | None => false end) d.

(* Every attribute that the whitelist keeps has a value. *)
Definition kept_valued (attrs : list attr) : bool :=
  all_valued (parse_attributes attrs).

(* A balanced tree whose kept attributes have values. *)
Fixpoint tidy (n : node) : bool :=
  match n with
  | Text _ => true
  | Void tag attrs => mem tag _voidElements && kept_valued attrs
  | Elem tag attrs kids =>
      negb (mem tag _voidElements) && kept_valued attrs && forallb tidy kids
  end.

(* No download raises: each one reads its file or ends in URLError. *)
Definition calm (env : Env) : Prop :=
  forall url e, downloadMedia env url <> Raise e.

Definition reliable (world : World) : Prop :=
  forall images, calm (world images).

(* The text a start tag is written as, its tooltips, the images it saves,
   and the exception it raises instead, if any. *)
Definition markup (env : Env) (tag : string) (attrs : list attr) : string :=
  match starttag_text env tag attrs with
  | Ok (text, _, _) => text
  | Raise _ => ""
  end.

Definition tips_of (env : Env) (tag : string) (attrs : list attr) : list string :=
  if mem tag _ignoredTags then []
  else match starttag_text env tag attrs with
       | Ok (_, tips, _) => tips
       | Raise _ => []
       end.

Definition images_of (env : Env) (tag : string) (attrs : list attr)
  : list string :=
  if mem tag _ignoredTags then []
  else match starttag_text env tag attrs with
       | Ok (_, _, images) => images
       | Raise _ => []
       end.

Definition start_error (env : Env) (tag : string) (attrs : list attr)
  : option exn :=
  if mem tag _ignoredTags then None
  else match starttag_text env tag attrs with
       | Ok _ => None
       | Raise e => Some e
       end.

(* The images saved once a tree was filtered, after those saved before. *)
Fixpoint tree_saved (world : World) (images : list string) (n : node)
  : list string :=
  match n with
  | Text _ => images
  | Void tag attrs => (images ++ images_of (world images) tag attrs)%list
  | Elem tag attrs kids =>
      fold_left (tree_saved world) kids
                (images ++ images_of (world images) tag attrs)%list
  end.

(* [f] over the trees in order, each in the world its elder siblings left. *)
Definition in_turn {B : Type} (world : World)
           (f : list string -> node -> list B)
  : list string -> list node -> list B :=
  fix turn (images : list string) (ns : list node) : list B :=
    match ns with
    | [] => []
    | n :: ns' => (f images n ++ turn (tree_saved world images n) ns')%list
    end.

Definition first_some {B : Type} (world : World)
           (f : list string -> node -> option B)
  : list string -> list node -> option B :=
  fix first (images : list string) (ns : list node) : option B :=
    match ns with
    | [] => None
    | n :: ns' => match f images n with
                  | Some b => Some b
                  | None => first (tree_saved world images n) ns'
                  end
    end.

(* The filter as a recursion over the tree: a subtree under a tag outside
   the whitelist is dropped, an ignored tag keeps its children only. *)
Fixpoint sanitize_tree (world : World) (images : list string) (n : node)
  : list string :=
  match n with
  | Text data => [data]
  | Void tag attrs => [markup (world images) tag attrs]
  | Elem tag attrs kids =>
      let inner :=
        in_turn world (sanitize_tree world)
                (images ++ images_of (world images) tag attrs)%list kids in
      if mem tag _allowedTags then
        if mem tag _ignoredTags then inner
        else ([markup (world images) tag attrs] ++ inner
              ++ ["</" ++ tag ++ ">"]%string)%list
      else []
  end.

(* The tooltips raised while a tree is filtered. *)
Fixpoint tree_tips (world : World) (images : list string) (n : node)
  : list string :=
  match n with
  | Text _ => []
  | Void tag attrs => tips_of (world images) tag attrs
  | Elem tag attrs kids =>
      (tips_of (world images) tag attrs
       ++ in_turn world (tree_tips world)
                  (images ++ images_of (world images) tag attrs) kids)%list
  end.

(* The first exception raised over a tree, in the order of the document. *)
Fixpoint first_error (world : World) (images : list string) (n : node)
  : option exn :=
  match n with
  | Text _ => None
  | Void tag attrs => start_error (world images) tag attrs
  | Elem tag attrs kids =>
      match start_error (world images) tag attrs with
      | Some e => Some e
      | None =>
          first_some world (first_error world)
                     (images ++ images_of (world images) tag attrs)%list kids
      end
  end.

(** ** States up to what was written so far *)

(* The state with an empty output and no tooltip yet. *)
Definition quiet (st : state) : state :=
  {| nonAllowedTagCountInStack := nonAllowedTagCountInStack st;
     output := [];
     tagStack := tagStack st;
     parseError := parseError st;
     tooltips := [];
     saved := saved st |}.

(* The state with [out] and [tips] before what it wrote and raised. *)
Definition rebase (out tips : list string) (st : state) : state :=
  {| nonAllowedTagCountInStack := nonAllowedTagCountInStack st;
     output := out ++ output st;
     tagStack := tagStack st;
     parseError := parseError st;
     tooltips := tips ++ tooltips st;
     saved := saved st |}.

(* The state after [out] was written and [tips] were raised, with [images]
   for the images saved. *)
Definition wrote (st : state) (out tips images : list string) : state :=
  {| nonAllowedTagCountInStack := nonAllowedTagCountInStack st;
     output := output st ++ out;
     tagStack := tagStack st;
     parseError := parseError st;
     tooltips := tooltips st ++ tips;
     saved := images |}.

Definition result_map {A B : Type} (f : A -> B) (r : result A) : result B :=
  match r with
  | Ok a => Ok (f a)
  | Raise e => Raise e
  end.

(* What trees add to the output under a counter [c]. *)
Definition written (world : World) (c : Z) (images : list string)
           (ns : list node) : list string :=
  if c =? 0 then in_turn world (sanitize_tree world) images ns else [].

(* What [feed] answers on trees: the first exception, or the state with
   the output, the tooltips and the saved images of the trees. *)
Definition answer (world : World) (st : state) (ns : list node)
  : result state :=
  match first_some world (first_error world) (saved st) ns with
  | Some e => Raise e
  | None =>
      Ok (wrote st
                (written world (nonAllowedTagCountInStack st) (saved st) ns)
                (in_turn world (tree_tips world) (saved st) ns)
                (fold_left (tree_saved world) ns (saved st)))
  end.

(** ** Tokens and the suppression counter *)

(* The start tag of a non-void tag outside the whitelist: the one token
   that raises the counter. *)
Definition opens_suppressed (t : token) : bool :=
  match t with
  | StartTag tag _ => negb (mem tag _voidElements) && negb (mem tag _allowedTags)
  | _ => false
  end.

Definition token_valued (t : token) : bool :=
  match t with
  | StartTag _ attrs => kept_valued attrs
  | _ => true
  end.

(** ** Style declarations as the regular expression reads them back *)

Definition no_char (bad : ascii -> bool) (s : string) : bool :=
  forallb (fun c => negb (bad c)) (list_ascii_of_string s).

(* A pair as [findall] returns it: neither part empty, no newline in it. *)
Definition matched_pair (kv : string * string) : bool :=
  negb (String.eqb (fst kv) "") && no_char is_newline (fst kv)
  && negb (String.eqb (snd kv) "") && no_char is_newline (snd kv).

(* A property: not empty, no colon, no space, no newline. *)
Definition clean_property (k : string) : bool :=
  match k with EmptyString => false | String _ _ => true end
  && no_char (fun c => is_char ":" c || is_char " " c || is_newline c) k.

(* A value: not empty, no leading space, no semicolon, no newline. *)
Definition clean_value (v : string) : bool :=
  match v with EmptyString => false | String c _ => negb (is_char " " c) end
  && no_char (fun c => is_char ";" c || is_newline c) v.

Definition spaces (n : nat) : string :=
  string_of_list_ascii (repeat " "%char n).

(* property, spaces, colon, spaces, value, semicolon *)
Definition declaration (pad : nat * nat) (kv : string * string) : string :=
  fst kv ++ spaces (fst pad) ++ ":" ++ spaces (snd pad) ++ snd kv ++ ";".

Fixpoint declarations (l : list ((nat * nat) * (string * string))) : string :=
  match l with
  | [] => ""
  | (pad, kv) :: l' => declaration pad kv ++ declarations l'
  end.

(* The value of the last pair with key [k]. *)
Fixpoint last_value (k : string) (l : list (string * string)) : option string :=
  match l with
  | [] => None
  | (k', v) :: l' =>
      match last_value k l' with
      | Some v' => Some v'
      | None => if String.eqb k k' then Some v else None
      end
  end.

(** ** Counting occurrences of a text *)

Fixpoint occurrences (needle hay : string) : nat :=
  match hay with
  | EmptyString => O
  | String _ hay' =>
      ((if String.prefix needle hay then 1 else 0) + occurrences needle hay')%nat
  end.

(** ** [onHtmlCopy]: what is put on the clipboard and pasted

    [mime] is the html of the clipboard, None when [mime.hasHtml()] is
    false.  The bare [except] turns any exception of [cleanTag] into the
    html as it came; the same text goes to [clip.setMimeData] and to
    [editor.doPaste]. *)

Definition onHtmlCopy (tokenize : string -> list token) (world : World)
           (mime : option string) : option string :=
  match mime with
  | None => None
  | Some html =>
      Some (match cleanTag tokenize world html with
            | Ok newHtml => newHtml
            | Raise _ => html
            end)
  end.

(** ** The suppression counter as a tally *)

(* The end tag of a non-void tag outside the whitelist: the one token that
   lowers the counter. *)
Definition closes_suppressed (t : token) : bool :=
  match t with
  | EndTag tag => negb (mem tag _voidElements) && negb (mem tag _allowedTags)
  | _ => false
  end.

Definition step_of (t : token) : Z :=
  (if opens_suppressed t then 1 else 0) - (if closes_suppressed t then 1 else 0).

Fixpoint tally (toks : list token) : Z :=
  match toks with
  | [] => 0
  | t :: toks' => step_of t + tally toks'
  end.

(* What a token writes while the counter is zero. *)
Definition emit (env : Env) (t : token) : list string :=
  match t with
  | StartTag tag attrs =>
      if mem tag _ignoredTags then [] else [markup env tag attrs]
  | EndTag tag =>
      if mem tag _voidElements then []
      else if mem tag _ignoredTags then []
           else if mem tag _allowedTags then ["</" ++ tag ++ ">"] else []
  | Data data => [data]
  end.

(* The images a token saves. *)
Definition token_images (env : Env) (t : token) : list string :=
  match t with
  | StartTag tag attrs => images_of env tag attrs
  | _ => []
  end.

(* What the tokens write in order while the counter is zero, each in the
   world the tokens before it left. *)
Fixpoint emitted (world : World) (images : list string) (toks : list token)
  : list string :=
  match toks with
  | [] => []
  | t :: toks' =>
      (emit (world images) t
       ++ emitted world (images ++ token_images (world images) t) toks')%list
  end.

(* What the caller can see of the parser and what the world has come to:
   the stack and the error flag are left out. *)
Definition observe (st : state)
  : Z * list string * list string * list string :=
  (nonAllowedTagCountInStack st, output st, tooltips st, saved st).

(** ** Lines and white space *)

(* No line of [s] is empty or white space only and ended by a newline;
   [bol] says whether [s] starts a line. *)
Fixpoint clean_lines (bol : bool) (s : string) : bool :=
  (if bol then match blank_line s with Some _ => false | None => true end
   else true)
  && match s with
     | EmptyString => true
     | String c s' => clean_lines (is_newline c) s'
     end.

(* The characters of [s] that are not white space. *)
Fixpoint visible (s : string) : string :=
  match s with
  | EmptyString => EmptyString
  | String c s' => if is_space c then visible s' else String c (visible s')
  end.

(** ** The last attribute of a name *)

Fixpoint last_attr (k : string) (attrs : list attr) : option (option string) :=
  match attrs with
  | [] => None
  | (k', v) :: attrs' =>
      match last_attr k attrs' with
      | Some v' => Some v'
      | None => if String.eqb k k' then Some v else None
      end
  end.


(* A start or end tag of html or body. *)
Definition ignored_token (t : token) : bool :=
  match t with
  | StartTag tag _ => mem tag _ignoredTags
  | EndTag tag => mem tag _ignoredTags
  | Data _ => false
  end.


(* The start tag of an image that has a src attribute: the only callback
   that calls downloadMedia. *)
Definition fetches (t : token) : bool :=
  match t with
  | StartTag tag attrs =>
      String.eqb tag "img"
      && match last_attr "src" attrs with Some _ => true | None => false end
  | _ => false
  end.




(* A world in which every file can be read and every image is written,
   where Qt numbers the images it makes: the cache key of an image is the
   number of images made before it. *)
Definition numbering : World :=
  fun images =>
    {| env_read := fun _ => Content "bytes";
       env_urlopen := fun _ => URLError;
       env_pastePNG := false;
       env_cacheKey := fun _ => Z.of_nat (List.length images);
       env_namedtmp := fun name => name;
       env_save := fun _ _ _ => true;
       env_addFile := fun path => path |}.


(* An environment with one file on a drive, where the images are written
   as PNG in /tmp and the media collection keeps their names. *)
Definition drive : Env :=
  {| env_read := fun path =>
       if String.eqb path "C:\a.png" then Content "bytes" else OSError;
     env_urlopen := fun _ => URLError;
     env_pastePNG := true;
     env_cacheKey := fun _ => 7;
     env_namedtmp := fun name => "/tmp/" ++ name;
     env_save := fun _ _ _ => true;
     env_addFile := fun path => drop 5 path |}.

(* The environment with another answer of the network. *)
Definition with_urlopen (env : Env) (urlopen : string -> fetched) : Env :=
  {| env_read := env_read env;
     env_urlopen := urlopen;
     env_pastePNG := env_pastePNG env;
     env_cacheKey := env_cacheKey env;
     env_namedtmp := env_namedtmp env;
     env_save := env_save env;
     env_addFile := env_addFile env |}.


(** ** A style text as a style sheet reads it *)





(** * Properties *)

(* [H : a && b = true] into its two halves. *)
Ltac andb_split H H1 H2 :=
  apply andb_true_iff in H; destruct H as [H1 H2].

(** ** Evaluations on concrete documents *)

(** C5.  The filter is not idempotent.  [cgi.escape] leaves the double
    quote alone while the value is written between double quotes: the
    start tag [a] whose title is one double quote (as tokenized from a
    title written between single quotes, or as the entity quot) is written
    with three double quotes after [title=].  The tokenizer reads that
    text back as the tag [a] with an empty [title] and a second attribute
    without value whose name is a double quote; for these the filter
    writes the tag with an empty title, a different text.  Text is written
    unescaped as well: the data [<foo>x] (tokenized from the entities lt
    and gt around foo) is written as it is, and read back it is a tag
    outside the whitelist whose content is dropped.  So with any tokenizer
    that reads these two texts as html.parser does, [cleanTag] applied to
    its own result gives another text. *)
Theorem second_pass_differs :
  forall world,
    let once := "<a title=" ++ dquote ++ dquote ++ dquote ++ ">" in
    let twice := "<a title=" ++ dquote ++ dquote ++ ">" in
    clean_tokens world [StartTag "a" [("title", Some dquote)]] = Ok once
    /\ clean_tokens world [StartTag "a" [("title", Some ""); (dquote, None)]]
       = Ok twice
    /\ clean_tokens world [Data "<foo>x"] = Ok "<foo>x"
    /\ clean_tokens world [StartTag "foo" []; Data "x"] = Ok ""
    /\ forall tokenize data,
         tokenize data = [StartTag "a" [("title", Some dquote)]] ->
         tokenize once = [StartTag "a" [("title", Some ""); (dquote, None)]] ->
         cleanTag tokenize world data = Ok once
         /\ cleanTag tokenize world once = Ok twice
         /\ String.eqb once twice = false.
Proof.
  intros world once twice. do 4 (split; [reflexivity|]).
  intros tokenize data Hfirst Hsecond. unfold cleanTag.
  rewrite Hfirst, Hsecond. repeat split; reflexivity.
Qed.

Lemma second_pass_differs_single_quotes :
  let data := "<a title='" ++ dquote ++ "'>" in
  let once := "<a title=" ++ dquote ++ dquote ++ dquote ++ ">" in
  let tokenize := fun text : string =>
    if String.eqb text data then [StartTag "a" [("title", Some dquote)]]
    else if String.eqb text once
         then [StartTag "a" [("title", Some ""); (dquote, None)]]
         else [Data text] in
  cleanTag tokenize offline data = Ok once
  /\ cleanTag tokenize offline once
     = Ok ("<a title=" ++ dquote ++ dquote ++ ">").
Proof.
  intros data once tokenize.
  destruct (proj2 (proj2 (proj2 (proj2 (second_pass_differs offline))))
              tokenize data eq_refl eq_refl) as [Hone [Htwo _]].
  split; [exact Hone|exact Htwo].
Defined.

(** C7.  Malformed-tag recovery: for [<b><i>text</b></i>] the filter
    returns [<b><i>text</b></i>] without raising.  The text occurs once,
    [</b>] and [</i>] occur once each in the order of the input, the stack
    ends empty, and the entry [i] discarded by [</b>] leaves no trace but
    [parseError = True]. *)
Theorem malformed_tag_recovery :
  forall world,
    let doc := [StartTag "b" []; StartTag "i" []; Data "text";
                EndTag "b"; EndTag "i"] in
    feed world doc init
    = Ok {| nonAllowedTagCountInStack := 0;
            output := ["<b>"; "<i>"; "text"; "</b>"; "</i>"];
            tagStack := [];
            parseError := true;
            tooltips := [];
            saved := [] |}
    /\ clean_tokens world doc = Ok "<b><i>text</b></i>"
    /\ occurrences "text" "<b><i>text</b></i>" = 1%nat
    /\ occurrences "</b>" "<b><i>text</b></i>" = 1%nat
    /\ occurrences "</i>" "<b><i>text</b></i>" = 1%nat.
Proof.
  intros world doc. repeat split; reflexivity.
Qed.

(** ** Dictionaries *)

Section DictFacts.
Variable V : Type.
Implicit Types (d : dict V) (k : string) (v : V).

Lemma dict_get_set_same k v d : dict_get k (dict_set k v d) = Some v.
Proof.
  induction d as [|[k' v'] d IH]; simpl.
  - now rewrite String.eqb_refl.
  - destruct (String.eqb k k') eqn:E; simpl; rewrite E; auto.
Qed.

Lemma dict_get_set_other k k' v d :
  k <> k' -> dict_get k (dict_set k' v d) = dict_get k d.
Proof.
  intros Hne. induction d as [|[k0 v0] d IH]; simpl.
  - destruct (String.eqb_spec k k'); congruence.
  - destruct (String.eqb_spec k' k0) as [->|Hk0]; simpl.
    + destruct (String.eqb_spec k k0); congruence.
    + destruct (String.eqb k k0); auto.
Qed.

Lemma keys_dict_set k v d :
  keys (dict_set k v d) = if mem k (keys d) then keys d else (keys d ++ [k])%list.
Proof.
  unfold mem. induction d as [|[k' v'] d IH]; simpl; auto.
  destruct (String.eqb k k') eqn:E; simpl; auto.
  rewrite IH. now destruct (existsb (String.eqb k) (keys d)).
Qed.

Lemma mem_In k (l : list string) : mem k l = true <-> In k l.
Proof.
  unfold mem. rewrite existsb_exists. split.
  - intros [x [Hin Heq]]. apply String.eqb_eq in Heq. now subst.
  - intros Hin. exists k. split; auto. apply String.eqb_refl.
Qed.

Lemma NoDup_keys_dict_set k v d : NoDup (keys d) -> NoDup (keys (dict_set k v d)).
Proof.
  intros Hnd. rewrite keys_dict_set. destruct (mem k (keys d)) eqn:E; auto.
  apply NoDup_app; auto.
  - repeat constructor. simpl; tauto.
  - intros x Hx [<-|[]]. apply mem_In in Hx. congruence.
Qed.

Lemma dict_get_In k v d : dict_get k d = Some v -> In (k, v) d.
Proof.
  induction d as [|[k' v'] d IH]; simpl; [discriminate|].
  destruct (String.eqb_spec k k') as [->|]; intros H; auto.
  inversion H; auto.
Qed.
End DictFacts.



Lemma NoDup_keys_update items : forall d,
  NoDup (keys d) -> NoDup (keys (update d items)).
Proof.
  unfold update. induction items as [|[k v] items IH]; simpl; intros d Hnd; auto.
  apply IH. now apply NoDup_keys_dict_set.
Qed.

Lemma NoDup_keys_parse_styles style : NoDup (keys (parse_styles style)).
Proof.
  unfold parse_styles. generalize (_styleRegex_findall style).
  assert (H : NoDup (keys (@nil (string * string)))) by constructor.
  revert H. generalize (@nil (string * string)).
  intros d Hd l. revert d Hd.
  induction l as [|[k v] l IH]; simpl; intros d Hd; auto.
  apply IH. destruct (mem k _allowedStyles); auto.
  now apply NoDup_keys_dict_set.
Qed.


(* The keys of each override table are distinct. *)
Lemma override_tables_NoDup tag table :
  dict_get tag _overrideStyles = Some table -> NoDup (keys table).
Proof.
  unfold _overrideStyles. simpl.
  repeat match goal with
         | |- (if ?b then _ else _) = _ -> _ => destruct b
         end;
    intros H; inversion H; subst; simpl;
    repeat (constructor; [simpl; intuition discriminate|]); constructor.
Qed.

(** ** Strings *)

Lemma append_nil_r (s : string) : s ++ "" = s.
Proof. induction s; simpl; congruence. Qed.

Lemma append_assoc (a b c : string) : (a ++ b) ++ c = a ++ (b ++ c).
Proof. induction a; simpl; congruence. Qed.

Lemma concat_cons (x : string) (l : list string) :
  String.concat "" (x :: l) = x ++ String.concat "" l.
Proof. destruct l; simpl; auto. now rewrite append_nil_r. Qed.

Lemma concat_app (l1 l2 : list string) :
  String.concat "" (l1 ++ l2)%list = String.concat "" l1 ++ String.concat "" l2.
Proof.
  induction l1 as [|x l1 IH]; auto.
  rewrite <- app_comm_cons, !concat_cons, IH. now rewrite append_assoc.
Qed.

Lemma style_string_app (d1 d2 : dict string) :
  style_string (d1 ++ d2)%list = style_string d1 ++ style_string d2.
Proof. unfold style_string. now rewrite map_app, concat_app. Qed.


(** ** The output and the tooltips only grow *)

Lemma rebase_quiet st : rebase (output st) (tooltips st) (quiet st) = st.
Proof. destruct st; unfold rebase, quiet; simpl. now rewrite !app_nil_r. Qed.

Lemma writeData_rebase o t st data :
  writeData (rebase o t st) data = rebase o t (writeData st data).
Proof.
  unfold writeData, rebase; simpl.
  destruct (nonAllowedTagCountInStack st =? 0); simpl; auto.
  now rewrite app_assoc.
Qed.

Lemma push_tag_rebase o t st tag :
  push_tag (rebase o t st) tag = rebase o t (push_tag st tag).
Proof. unfold push_tag. destruct (mem tag _voidElements); auto. Qed.

Lemma notify_rebase o t st tips images :
  notify (rebase o t st) tips images = rebase o t (notify st tips images).
Proof. unfold notify, rebase; simpl. now rewrite app_assoc. Qed.

Lemma handle_starttag_rebase world o t st tag attrs :
  handle_starttag world (rebase o t st) tag attrs
  = result_map (rebase o t) (handle_starttag world st tag attrs).
Proof.
  unfold handle_starttag. rewrite push_tag_rebase.
  destruct (mem tag _ignoredTags); auto.
  change (saved (rebase o t st)) with (saved st).
  destruct (starttag_text (world (saved st)) tag attrs) as [[[text tips] images]|e];
    simpl; auto.
  now rewrite notify_rebase, writeData_rebase.
Qed.

Lemma handle_endtag_rebase o t st tag :
  handle_endtag (rebase o t st) tag = rebase o t (handle_endtag st tag).
Proof.
  unfold handle_endtag. destruct (mem tag _voidElements); auto.
  simpl tagStack. simpl parseError.
  destruct (pop_until tag (tagStack st) (parseError st)) as [stack err].
  destruct (mem tag _allowedTags); auto.
  destruct (mem tag _ignoredTags); auto.
  match goal with
  | |- writeData ?s _ = _ =>
      change s with (rebase o t
        {| nonAllowedTagCountInStack := nonAllowedTagCountInStack st;
           output := output st; tagStack := tl stack; parseError := err;
           tooltips := tooltips st; saved := saved st |})
  end.
  apply writeData_rebase.
Qed.

Lemma handle_rebase world o t st tok :
  handle world (rebase o t st) tok = result_map (rebase o t) (handle world st tok).
Proof.
  destruct tok; simpl.
  - apply handle_starttag_rebase.
  - now rewrite handle_endtag_rebase.
  - unfold handle_data. now rewrite writeData_rebase.
Qed.

Lemma feed_rebase world toks : forall o t st,
  feed world toks (rebase o t st) = result_map (rebase o t) (feed world toks st).
Proof.
  induction toks as [|tok toks IH]; intros o t st; simpl; auto.
  rewrite handle_rebase. destruct (handle world st tok); simpl; auto.
Qed.

(* What a run writes does not depend on what was written before it. *)
Lemma feed_quiet env toks st :
  feed env toks st
  = result_map (rebase (output st) (tooltips st)) (feed env toks (quiet st)).
Proof. now rewrite <- feed_rebase, rebase_quiet. Qed.

Lemma feed_app world toks1 : forall toks2 st,
  feed world (toks1 ++ toks2) st = (st' <- feed world toks1 st ;; feed world toks2 st').
Proof.
  induction toks1 as [|tok toks1 IH]; intros toks2 st; simpl; auto.
  destruct (handle world st tok); simpl; auto.
Qed.

(** ** Start tags whose attributes all have values *)

Lemma all_valued_dict_set k v d :
  all_valued d = true -> all_valued (dict_set k (Some v) d) = true.
Proof.
  unfold all_valued. induction d as [|[k' v'] d IH]; simpl; auto.
  intros H. andb_split H H1 H2.
  destruct (String.eqb k k'); simpl; [|rewrite H1]; auto.
Qed.

Lemma all_valued_dict_del k d :
  all_valued d = true -> all_valued (dict_del k d) = true.
Proof.
  unfold all_valued. induction d as [|[k' v'] d IH]; simpl; auto.
  intros H. andb_split H H1 H2.
  destruct (String.eqb k k'); simpl; [|rewrite H1]; auto.
Qed.

Lemma all_valued_get k x d :
  all_valued d = true -> dict_get k d = Some x -> exists v, x = Some v.
Proof.
  unfold all_valued. induction d as [|[k' v'] d IH]; simpl; [discriminate|].
  intros H. andb_split H H1 H2.
  destruct (String.eqb k k'); auto.
  intros Hx. inversion Hx; subst. destruct x; [eauto|discriminate].
Qed.

(* Attributes that all have values are kept with values. *)
Lemma all_valued_parse_attributes attrs :
  forallb (fun a : attr => match snd a with Some _ => true | None => false end)
          attrs = true ->
  kept_valued attrs = true.
Proof.
  unfold kept_valued, parse_attributes.
  assert (H0 : all_valued [("style", Some "")] = true) by reflexivity.
  revert H0. generalize [("style", Some "")].
  induction attrs as [|[k v] attrs IH]; simpl; intros d Hd H; auto.
  andb_split H Hv H. apply IH; auto.
  destruct (mem k _allowedAttributes); auto.
  destruct v; [|discriminate]. now apply all_valued_dict_set.
Qed.

Lemma parse_attributes_has_style attrs :
  exists x, dict_get "style" (parse_attributes attrs) = Some x.
Proof.
  unfold parse_attributes.
  assert (H0 : exists x, dict_get "style" [("style", Some "")] = Some x)
    by (simpl; eauto).
  revert H0. generalize [("style", Some "")].
  induction attrs as [|[k v] attrs IH]; simpl; intros d Hd; auto.
  apply IH. destruct (mem k _allowedAttributes); auto.
  destruct (String.eqb_spec "style" k) as [<-|Hne].
  - rewrite dict_get_set_same. eauto.
  - now rewrite dict_get_set_other.
Qed.

Lemma dict_get_del_other (V : Type) k k' (d : dict V) :
  k <> k' -> dict_get k (dict_del k' d) = dict_get k d.
Proof.
  intros Hne. induction d as [|[k0 v0] d IH]; simpl; auto.
  destruct (String.eqb_spec k' k0) as [->|Hk0]; simpl.
  - destruct (String.eqb_spec k k0); congruence.
  - destruct (String.eqb k k0); auto.
Qed.

Lemma styled_get_other k attrDict styleDict :
  k <> "style" -> dict_get k (styled attrDict styleDict) = dict_get k attrDict.
Proof.
  intros Hne. unfold styled. destruct styleDict.
  - now apply dict_get_del_other.
  - now apply dict_get_set_other.
Qed.

Lemma all_valued_styled attrDict styleDict :
  all_valued attrDict = true -> all_valued (styled attrDict styleDict) = true.
Proof.
  intros H. unfold styled. destruct styleDict.
  - now apply all_valued_dict_del.
  - now apply all_valued_dict_set.
Qed.

(* With values everywhere the style step returns, and touches [style] only. *)
Lemma sanitize_attributes_valued tag attrs :
  kept_valued attrs = true ->
  exists d,
    sanitize_attributes tag attrs = Ok d
    /\ all_valued d = true
    /\ forall k, k <> "style" -> dict_get k d = dict_get k (parse_attributes attrs).
Proof.
  intros Hall. unfold sanitize_attributes.
  destruct (parse_attributes_has_style attrs) as [x Hx]. rewrite Hx.
  destruct (all_valued_get _ _ Hall Hx) as [style ->].
  eexists. split; [reflexivity|]. split.
  - now apply all_valued_styled.
  - intros k Hk. now apply styled_get_other.
Qed.

Lemma attr_items_valued d :
  all_valued d = true ->
  exists items,
    attr_items d = Ok items
    /\ forall k v, In (k, Some v) d ->
                   In (k ++ "=" ++ dquote ++ cgi_escape v ++ dquote) items.
Proof.
  unfold all_valued. induction d as [|[k [v|]] d IH]; simpl; intros H.
  - exists []. split; [reflexivity | intros k v []].
  - destruct (IH H) as [items [Hitems Hin]]. rewrite Hitems. simpl.
    eexists. split; [reflexivity|].
    intros k0 v0 [Heq|Hd].
    + inversion Heq; subst. now left.
    + right. now apply Hin.
  - discriminate.
Qed.

Lemma attr_string_valued d :
  all_valued d = true -> exists attrStr, attr_string d = Ok attrStr.
Proof.
  intros H. unfold attr_string. destruct d as [|kv d]; [eauto|].
  destruct (attr_items_valued _ H) as [items [-> _]]. simpl. eauto.
Qed.

Lemma downloadMedia_calm env url :
  calm env -> exists imageData, downloadMedia env url = Ok imageData.
Proof.
  intros Hcalm. destruct (downloadMedia env url) as [imageData|e] eqn:E; eauto.
  exfalso. exact (Hcalm url e E).
Qed.

Lemma cure_image_valued env tag d :
  calm env -> all_valued d = true ->
  exists d' tips images,
    cure_image env tag d = Ok (d', tips, images) /\ all_valued d' = true.
Proof.
  intros Hcalm Hall. unfold cure_image.
  destruct (String.eqb tag "img"); [|eauto 6].
  destruct (dict_get "src" d) as [x|] eqn:Hsrc; [|eauto 6].
  destruct (all_valued_get _ _ Hall Hsrc) as [imageUrl ->].
  destruct (downloadMedia_calm imageUrl Hcalm) as [imageData ->]. simpl.
  destruct imageData as [[|c data]|]; eauto 6.
  do 3 eexists. split; [reflexivity|]. now apply all_valued_dict_set.
Qed.

(* The text of a start tag exists when its attributes have values and the
   download does not crash. *)
Lemma starttag_text_valued env tag attrs :
  calm env -> kept_valued attrs = true ->
  exists text tips images, starttag_text env tag attrs = Ok (text, tips, images).
Proof.
  intros Hcalm Hv. unfold starttag_text.
  destruct (sanitize_attributes_valued tag _ Hv) as [d [-> [Hall _]]]. simpl.
  destruct (cure_image_valued tag _ Hcalm Hall) as [d' [tips [images [-> Hall']]]].
  simpl.
  destruct (attr_string_valued _ Hall') as [attrStr ->]. simpl. eauto.
Qed.

Lemma handle_starttag_exact world st tag attrs :
  handle_starttag world st tag attrs
  = match start_error (world (saved st)) tag attrs with
    | Some e => Raise e
    | None =>
        Ok (if mem tag _ignoredTags then push_tag st tag
            else writeData
                   (notify (push_tag st tag)
                           (tips_of (world (saved st)) tag attrs)
                           (images_of (world (saved st)) tag attrs))
                   (markup (world (saved st)) tag attrs))
    end.
Proof.
  unfold handle_starttag, start_error, tips_of, images_of, markup.
  destruct (mem tag _ignoredTags); auto.
  now destruct (starttag_text (world (saved st)) tag attrs)
    as [[[text tips] images]|e].
Qed.

Lemma start_error_valued env tag attrs :
  calm env -> kept_valued attrs = true -> start_error env tag attrs = None.
Proof.
  intros Hcalm Hval. unfold start_error. destruct (mem tag _ignoredTags); auto.
  now destruct (starttag_text_valued tag _ Hcalm Hval)
    as [text [tips [images ->]]].
Qed.

(** ** Media that cannot be fetched *)







(** ** While the counter is not zero nothing is written *)

Lemma writeData_suppressed st data :
  nonAllowedTagCountInStack st <> 0 -> writeData st data = st.
Proof.
  intros H. unfold writeData.
  destruct (Z.eqb_spec (nonAllowedTagCountInStack st) 0); congruence.
Qed.

Lemma handle_endtag_counter st tag :
  mem tag _voidElements = false -> mem tag _allowedTags = false ->
  nonAllowedTagCountInStack (handle_endtag st tag)
  = nonAllowedTagCountInStack st - 1
  /\ output (handle_endtag st tag) = output st.
Proof.
  intros Hvoid Hallowed. unfold handle_endtag. rewrite Hvoid.
  destruct (pop_until tag (tagStack st) (parseError st)) as [stack err].
  rewrite Hallowed. simpl. auto.
Qed.

(* A start tag returns when the attributes it keeps have values and the
   download does not crash; the other callbacks always return. *)
Lemma handle_returns world st tok :
  reliable world -> token_valued tok = true ->
  exists st', handle world st tok = Ok st'.
Proof.
  intros Hrel Hval. destruct tok as [tag attrs|tag|data]; simpl; eauto.
  rewrite handle_starttag_exact.
  rewrite (start_error_valued tag attrs (Hrel (saved st)) Hval). eauto.
Qed.

Lemma feed_returns world toks : forall st,
  reliable world -> forallb token_valued toks = true ->
  exists st', feed world toks st = Ok st'.
Proof.
  induction toks as [|tok toks IH]; intros st Hrel Hval; simpl; eauto.
  simpl in Hval. andb_split Hval Htok Hval.
  destruct (handle_returns st tok Hrel Htok) as [st1 ->]. simpl. auto.
Qed.

(* Below zero, a token that is not the start of a suppressed element writes
   nothing and does not raise the counter. *)
Lemma handle_below_zero world st tok st' :
  nonAllowedTagCountInStack st < 0 ->
  opens_suppressed tok = false ->
  handle world st tok = Ok st' ->
  output st' = output st
  /\ nonAllowedTagCountInStack st' <= nonAllowedTagCountInStack st.
Proof.
  intros Hneg Hopen. destruct tok as [tag attrs|tag|data]; simpl.
  - simpl in Hopen. rewrite handle_starttag_exact.
    assert (Hpush : output (push_tag st tag) = output st
                    /\ nonAllowedTagCountInStack (push_tag st tag)
                       = nonAllowedTagCountInStack st).
    { unfold push_tag. destruct (mem tag _voidElements); auto.
      destruct (mem tag _allowedTags); [auto|discriminate]. }
    destruct Hpush as [Hout Hcount].
    destruct (start_error _ tag attrs); [discriminate|].
    intros H; inversion H; subst st'; clear H.
    destruct (mem tag _ignoredTags); [split; [assumption|lia]|].
    rewrite writeData_suppressed by (simpl; lia). simpl. split; [assumption|lia].
  - intros H; inversion H; subst st'; clear H. unfold handle_endtag.
    destruct (mem tag _voidElements); [split; [reflexivity|lia]|].
    destruct (pop_until tag (tagStack st) (parseError st)) as [stack err].
    destruct (mem tag _allowedTags).
    + destruct (mem tag _ignoredTags); [simpl; split; [reflexivity|lia]|].
      rewrite writeData_suppressed by (simpl; lia). simpl. split; [reflexivity|lia].
    + simpl. split; [reflexivity|lia].
  - intros H; inversion H; subst st'; clear H. unfold handle_data.
    rewrite writeData_suppressed by lia. split; [reflexivity|lia].
Qed.

Lemma feed_below_zero world toks : forall st st',
  nonAllowedTagCountInStack st < 0 ->
  forallb (fun t => negb (opens_suppressed t)) toks = true ->
  feed world toks st = Ok st' ->
  output st' = output st /\ nonAllowedTagCountInStack st' < 0.
Proof.
  induction toks as [|tok toks IH]; intros st st' Hneg Hok; simpl.
  - intros H; inversion H; subst. auto.
  - simpl in Hok. andb_split Hok Hopen Hok.
    apply negb_true_iff in Hopen.
    destruct (handle world st tok) as [st1|e] eqn:Hstep; [|discriminate].
    destruct (@handle_below_zero world st tok st1 Hneg Hopen Hstep) as [Hout Hcount].
    simpl. intros Hfeed.
    destruct (IH st1 st' ltac:(lia) Hok Hfeed) as [Hout' Hneg'].
    split; [congruence|assumption].
Qed.

(** C4 (as the code has it).  An end tag of a non-void tag outside the
    whitelist lowers [nonAllowedTagCountInStack] by one whether or not a
    start tag is open.  When the counter was zero or less (as at the start
    of the input) it is negative afterwards, and whatever tags and texts
    follow, none of them the start tag of a non-void tag outside the
    whitelist, the filter writes nothing more and the counter stays
    negative.  (The filter returns when the attributes that are kept have
    values and no download raises.) *)
Theorem unmatched_endtag_suppresses :
  forall world st tag rest,
    mem tag _voidElements = false ->
    mem tag _allowedTags = false ->
    nonAllowedTagCountInStack st <= 0 ->
    forallb (fun t => negb (opens_suppressed t)) rest = true ->
    nonAllowedTagCountInStack (handle_endtag st tag)
    = nonAllowedTagCountInStack st - 1
    /\ (forall st', feed world (EndTag tag :: rest) st = Ok st' ->
                    output st' = output st
                    /\ nonAllowedTagCountInStack st' < 0)
    /\ (reliable world -> forallb token_valued rest = true ->
        exists st',
          feed world (EndTag tag :: rest) st = Ok st'
          /\ output st' = output st
          /\ nonAllowedTagCountInStack st' < 0).
Proof.
  intros world st tag rest Hvoid Hallowed Hcount Hrest.
  destruct (handle_endtag_counter st tag Hvoid Hallowed) as [Hdec Hout].
  assert (Hpartial : forall st', feed world (EndTag tag :: rest) st = Ok st' ->
                                 output st' = output st
                                 /\ nonAllowedTagCountInStack st' < 0).
  { intros st' Hfeed. simpl in Hfeed.
    destruct (@feed_below_zero world rest (handle_endtag st tag) st'
                ltac:(lia) Hrest Hfeed)
      as [Hout' Hneg].
    split; [congruence|assumption]. }
  split; [exact Hdec|]. split; [exact Hpartial|].
  intros Hrel Hval.
  destruct (@feed_returns world (EndTag tag :: rest) st Hrel Hval) as [st' Hfeed].
  exists st'. split; [exact Hfeed|]. now apply Hpartial.
Qed.

Lemma unplugged_calm : calm unplugged.
Proof.
  intros url e. unfold downloadMedia, request.
  destruct (local_read unplugged url) as [url' [[|data|e']|]] eqn:E;
    try discriminate; unfold local_read in E;
    destruct (startswith "file://" url); discriminate.
Defined.

Lemma offline_reliable : reliable offline.
Proof. intros images. exact unplugged_calm. Defined.

Lemma unmatched_endtag_suppresses_example :
  exists st',
    feed offline [EndTag "script"; Data "a"; StartTag "b" []; Data "c";
                  EndTag "b"; StartTag "br" []] init = Ok st'
    /\ output st' = []
    /\ nonAllowedTagCountInStack st' < 0.
Proof.
  exact (proj2 (proj2 (@unmatched_endtag_suppresses offline init "script"
                  [Data "a"; StartTag "b" []; Data "c"; EndTag "b";
                   StartTag "br" []]
                  eq_refl eq_refl ltac:(simpl; lia) eq_refl))
               offline_reliable eq_refl).
Defined.

(** C4, the claim as stated: after the unmatched [</script>] the counter is
    -1, yet the start tag of another tag outside the whitelist brings it
    back to zero; that tag and the text after it are written.  And with a
    suppressed element open, an unmatched end tag brings the counter from 1
    to 0, not below, and the text after it is written. *)
Lemma unmatched_endtag_then_output :
  nonAllowedTagCountInStack (handle_endtag init "script") = -1
  /\ clean_tokens offline [EndTag "script"; StartTag "foo" []; Data "hello"]
     = Ok "<foo>hello"
  /\ feed offline [StartTag "foo" []; EndTag "bar"; Data "x"] init
     = Ok {| nonAllowedTagCountInStack := 0; output := ["x"]; tagStack := [];
             parseError := true; tooltips := []; saved := [] |}.
Proof. repeat split; reflexivity. Qed.

(** ** The streaming filter on a well-formed document *)

Lemma wrote_nothing st : wrote st [] [] (saved st) = st.
Proof. destruct st; unfold wrote; simpl. now rewrite !app_nil_r. Qed.

Lemma wrote_wrote st o1 t1 i1 o2 t2 i2 :
  wrote (wrote st o1 t1 i1) o2 t2 i2 = wrote st (o1 ++ o2) (t1 ++ t2) i2.
Proof. unfold wrote; simpl. now rewrite !app_assoc. Qed.



Lemma written_nil world c images : written world c images [] = [].
Proof. unfold written. now destruct (c =? 0). Qed.

Lemma written_cons world c images n ns :
  written world c images (n :: ns)
  = (written world c images [n]
     ++ written world c (tree_saved world images n) ns)%list.
Proof.
  unfold written. destruct (c =? 0); auto. cbn [in_turn].
  now rewrite app_nil_r.
Qed.

Lemma written_suppressed world c images ns :
  c <> 0 -> written world c images ns = [].
Proof. intros H. unfold written. destruct (Z.eqb_spec c 0); congruence. Qed.

(* The children, one tree after the other. *)
Lemma feed_forest world kids :
  Forall (fun n => forall st,
            0 <= nonAllowedTagCountInStack st ->
            feed world (events n) st = answer world st [n]) kids ->
  forall st,
    0 <= nonAllowedTagCountInStack st ->
    feed world (flat_map events kids) st = answer world st kids.
Proof.
  induction 1 as [|n kids Hn _ IH]; intros st Hst; cbn [flat_map].
  - unfold answer. cbn [first_some in_turn fold_left].
    now rewrite written_nil, wrote_nothing.
  - rewrite feed_app, (Hn st Hst). unfold answer at 1 2.
    cbn [first_some in_turn fold_left].
    destruct (first_error world (saved st) n) as [e|]; [reflexivity|].
    cbn [bind]. rewrite IH by assumption. unfold answer.
    cbn [nonAllowedTagCountInStack wrote saved].
    destruct (first_some world (first_error world)
                         (tree_saved world (saved st) n) kids) as [e|];
      [reflexivity|].
    rewrite wrote_wrote, app_nil_r, <- written_cons. reflexivity.
Qed.

Lemma pop_until_top tag stack err :
  pop_until tag (tag :: stack) err = (tag :: stack, err).
Proof. simpl. now rewrite String.eqb_refl. Qed.

Lemma ignored_allowed tag :
  mem tag _ignoredTags = true -> mem tag _allowedTags = true.
Proof.
  intros H. apply mem_In in H. apply mem_In.
  unfold _allowedTags. apply in_or_app. now right.
Qed.

Lemma void_not_ignored tag :
  mem tag _voidElements = true -> mem tag _ignoredTags = false.
Proof.
  unfold _ignoredTags, mem at 2. simpl.
  destruct (String.eqb_spec tag "html") as [->|_]; [vm_compute; discriminate|].
  destruct (String.eqb_spec tag "body") as [->|_]; [vm_compute; discriminate|].
  reflexivity.
Qed.

Lemma images_of_ignored env tag attrs :
  mem tag _ignoredTags = true -> images_of env tag attrs = [].
Proof. intros H. unfold images_of. now rewrite H. Qed.

(* The children and the end tag of an element, from the state the start
   tag left. *)
Lemma feed_elem world tag kids st1 :
  feed world (flat_map events kids) st1 = answer world st1 kids ->
  feed world (flat_map events kids ++ [EndTag tag]) st1
  = match first_some world (first_error world) (saved st1) kids with
    | Some e => Raise e
    | None =>
        Ok (handle_endtag
              (wrote st1
                     (written world (nonAllowedTagCountInStack st1) (saved st1) kids)
                     (in_turn world (tree_tips world) (saved st1) kids)
                     (fold_left (tree_saved world) kids (saved st1)))
              tag)
    end.
Proof.
  intros Hforest. rewrite feed_app, Hforest. unfold answer.
  now destruct (first_some world (first_error world) (saved st1) kids).
Qed.

(* The streaming filter computes the recursion over the tree.  On a
   balanced tree [feed] raises the first exception of a start tag, if there
   is one; otherwise the output grows by [sanitize_tree] when the counter
   is zero and by nothing when it is positive, and stack, counter and error
   flag come back as they were. *)
Lemma feed_tree world n :
  balanced n = true ->
  forall st,
    0 <= nonAllowedTagCountInStack st ->
    feed world (events n) st = answer world st [n].
Proof.
  induction n as [data|tag attrs|tag attrs kids IH] using node_induction;
    intros Hbal st Hst.
  - simpl. unfold answer, handle_data, written, writeData, wrote. simpl.
    destruct (nonAllowedTagCountInStack st =? 0); simpl.
    + now rewrite !app_nil_r.
    + destruct st; simpl. now rewrite !app_nil_r.
  - simpl in Hbal. unfold answer.
    cbn [events feed handle first_error first_some in_turn fold_left
         tree_saved tree_tips].
    rewrite handle_starttag_exact.
    destruct (start_error _ tag attrs) as [e|]; [reflexivity|].
    rewrite (void_not_ignored _ Hbal). unfold push_tag. rewrite Hbal.
    unfold written, writeData, wrote, notify. cbn [in_turn sanitize_tree bind].
    destruct (nonAllowedTagCountInStack st =? 0) eqn:Hzero; simpl;
      now rewrite ?Hzero, ?app_nil_r.
  - simpl in Hbal. andb_split Hbal Hvoid Hkids.
    apply negb_true_iff in Hvoid.
    assert (Hforest : forall st,
               0 <= nonAllowedTagCountInStack st ->
               feed world (flat_map events kids) st = answer world st kids).
    { apply feed_forest. rewrite Forall_forall in IH |- *.
      intros n Hn. apply IH; auto.
      rewrite forallb_forall in Hkids. now apply Hkids. }
    clear IH. unfold answer at 1.
    cbn [events feed handle first_error first_some in_turn fold_left
         tree_saved tree_tips].
    rewrite handle_starttag_exact.
    destruct (start_error _ tag attrs) as [e|]; [reflexivity|].
    cbn [bind]. unfold push_tag. rewrite Hvoid.
    destruct (mem tag _allowedTags) eqn:Hallowed.
    + destruct (mem tag _ignoredTags) eqn:Hign.
      * rewrite (@feed_elem world tag kids) by (apply Hforest; assumption).
        rewrite images_of_ignored by exact Hign. rewrite app_nil_r.
        cbn [saved nonAllowedTagCountInStack].
        destruct (first_some world (first_error world) (saved st) kids) as [e|];
          [reflexivity|].
        unfold handle_endtag. rewrite Hvoid. cbn [tagStack wrote parseError].
        rewrite pop_until_top, Hallowed, Hign.
        unfold written, wrote. cbn [in_turn sanitize_tree tl].
        rewrite Hallowed, Hign. rewrite ?images_of_ignored by exact Hign.
        rewrite ?app_nil_r.
        unfold tips_of. rewrite Hign. reflexivity.
      * rewrite (@feed_elem world tag kids)
          by (apply Hforest; unfold writeData, notify;
              destruct (nonAllowedTagCountInStack _ =? 0); simpl; assumption).
        unfold written, writeData, notify, wrote.
        cbn [nonAllowedTagCountInStack output tagStack parseError tooltips saved].
        destruct (nonAllowedTagCountInStack st =? 0) eqn:Hzero;
          cbn [nonAllowedTagCountInStack output tagStack parseError tooltips saved];
          (destruct (first_some world (first_error world) _ kids) as [e|];
           [reflexivity|]);
          unfold handle_endtag; rewrite Hvoid;
          cbn [nonAllowedTagCountInStack output tagStack parseError tooltips saved];
          rewrite ?Hzero, pop_until_top, Hallowed, Hign;
          unfold writeData;
          cbn [nonAllowedTagCountInStack output tagStack parseError tooltips
               saved tl in_turn sanitize_tree];
          rewrite ?Hzero, ?Hallowed, ?Hign, ?app_nil_r, <- ?app_assoc;
          reflexivity.
    + assert (Hign : mem tag _ignoredTags = false).
      { destruct (mem tag _ignoredTags) eqn:E; auto.
        apply ignored_allowed in E. congruence. }
      rewrite Hign. rewrite writeData_suppressed by (simpl; lia).
      rewrite (@feed_elem world tag kids) by (apply Hforest; simpl; lia).
      cbn [saved nonAllowedTagCountInStack notify].
      destruct (first_some world (first_error world) _ kids) as [e|];
        [reflexivity|].
      rewrite (@written_suppressed world _ _ kids) by lia.
      unfold handle_endtag. rewrite Hvoid.
      cbn [tagStack wrote parseError notify]. rewrite pop_until_top, Hallowed.
      unfold written, wrote.
      cbn [nonAllowedTagCountInStack output tagStack parseError tooltips saved tl
           in_turn sanitize_tree].
      rewrite Hallowed. unfold notify.
      cbn [nonAllowedTagCountInStack output tagStack parseError tooltips saved].
      replace (nonAllowedTagCountInStack st + 1 - 1)
        with (nonAllowedTagCountInStack st) by lia.
      destruct (nonAllowedTagCountInStack st =? 0);
        now rewrite ?app_nil_r, <- ?app_assoc.
Qed.






(* A tidy tree is balanced and raises nothing. *)
Lemma tidy_balanced n : tidy n = true -> balanced n = true.
Proof.
  induction n as [data|tag attrs|tag attrs kids IH] using node_induction;
    simpl; auto; intros H.
  - apply andb_true_iff in H. tauto.
  - andb_split H H Hkids.
    apply andb_true_iff in H. destruct H as [-> _]. simpl.
    rewrite forallb_forall in Hkids |- *. rewrite Forall_forall in IH. auto.
Qed.





(** ** The style regular expression *)

Lemma lazy_value_length s v rest :
  lazy_value s = Some (v, rest) -> (String.length rest < String.length s)%nat.
Proof.
  revert v rest. induction s as [|c s IH]; simpl; intros v rest; [discriminate|].
  destruct (is_newline c); [discriminate|].
  destruct s as [|c' s']; [discriminate|].
  destruct (is_char ";" c').
  - intros H; inversion H; subst. simpl. lia.
  - destruct (lazy_value (String c' s')) as [[v' rest']|]; [|discriminate].
    intros H; inversion H; subst. specialize (IH _ _ eq_refl). simpl in *. lia.
Qed.

Lemma spaces_value_length s v rest :
  spaces_value s = Some (v, rest) -> (String.length rest < String.length s)%nat.
Proof.
  revert v rest. induction s as [|c s IH]; intros v rest; [discriminate|].
  cbn [spaces_value]. destruct (is_char " " c).
  - destruct (spaces_value s) as [[v' rest']|].
    + intros H; inversion H; subst. specialize (IH _ _ eq_refl). simpl. lia.
    + apply lazy_value_length.
  - apply lazy_value_length.
Qed.

Lemma skip_spaces_length s : (String.length (skip_spaces s) <= String.length s)%nat.
Proof.
  induction s as [|c s IH]; simpl; auto.
  destruct (is_char " " c); simpl; lia.
Qed.

Lemma colon_value_length s v rest :
  colon_value s = Some (v, rest) -> (String.length rest < String.length s)%nat.
Proof.
  unfold colon_value. pose proof (skip_spaces_length s) as Hskip.
  destruct (skip_spaces s) as [|c s']; [discriminate|].
  destruct (is_char ":" c); [|discriminate].
  intros H. apply spaces_value_length in H. simpl in Hskip. lia.
Qed.

Lemma match_here_length s k v rest :
  match_here s = Some (k, v, rest) -> (String.length rest < String.length s)%nat.
Proof.
  revert k v rest. induction s as [|c s IH]; intros k v rest; [discriminate|].
  cbn [match_here]. destruct (is_newline c); [discriminate|].
  destruct (colon_value s) as [[v' rest']|] eqn:E.
  - intros H; inversion H; subst. apply colon_value_length in E. simpl. lia.
  - destruct (match_here s) as [[[k' v'] rest']|]; [|discriminate].
    intros H; inversion H; subst. specialize (IH _ _ _ eq_refl). simpl. lia.
Qed.

(* More fuel than the length of the text changes nothing. *)
Lemma findall_from_fuel n : forall m s,
  (String.length s < n)%nat -> (String.length s < m)%nat ->
  findall_from n s = findall_from m s.
Proof.
  induction n as [|n IH]; intros m s Hn Hm; [lia|].
  destruct m as [|m]; [lia|]. simpl.
  destruct s as [|c s]; auto.
  destruct (match_here (String c s)) as [[[k v] rest]|] eqn:E.
  - apply match_here_length in E. simpl in *. f_equal. apply IH; lia.
  - simpl in *. apply IH; lia.
Qed.

(* findall, by the text: a match at the first position is taken and the
   search goes on after it; otherwise it goes on at the next position. *)
Lemma findall_step c s :
  _styleRegex_findall (String c s)
  = match match_here (String c s) with
    | Some (k, v, rest) => (k, v) :: _styleRegex_findall rest
    | None => _styleRegex_findall s
    end.
Proof.
  unfold _styleRegex_findall at 1.
  remember (String.length (String c s)) as n eqn:Hn. cbn [findall_from].
  destruct (match_here (String c s)) as [[[k v] rest]|] eqn:E.
  - apply match_here_length in E. f_equal.
    unfold _styleRegex_findall. apply findall_from_fuel; subst n; lia.
  - unfold _styleRegex_findall. apply findall_from_fuel; subst n; simpl; lia.
Qed.

Lemma findall_match s k v rest :
  match_here s = Some (k, v, rest) ->
  _styleRegex_findall s = (k, v) :: _styleRegex_findall rest.
Proof.
  destruct s as [|c s]; [discriminate|]. intros H. now rewrite findall_step, H.
Qed.

Lemma no_char_cons bad c s :
  no_char bad (String c s) = negb (bad c) && no_char bad s.
Proof. reflexivity. Qed.

Lemma lazy_value_matched s v rest :
  lazy_value s = Some (v, rest) ->
  negb (String.eqb v "") && no_char is_newline v = true.
Proof.
  revert v rest. induction s as [|c s IH]; simpl; intros v rest; [discriminate|].
  destruct (is_newline c) eqn:Hc; [discriminate|].
  destruct s as [|c' s']; [discriminate|].
  destruct (is_char ";" c').
  - intros H; inversion H; subst. simpl. rewrite no_char_cons, Hc. reflexivity.
  - destruct (lazy_value (String c' s')) as [[v' rest']|]; [|discriminate].
    intros H; inversion H; subst. specialize (IH _ _ eq_refl).
    apply andb_true_iff in IH. destruct IH as [_ IH].
    simpl. now rewrite no_char_cons, Hc, IH.
Qed.

Lemma spaces_value_matched s v rest :
  spaces_value s = Some (v, rest) ->
  negb (String.eqb v "") && no_char is_newline v = true.
Proof.
  revert v rest. induction s as [|c s IH]; intros v rest; [discriminate|].
  cbn [spaces_value]. destruct (is_char " " c).
  - destruct (spaces_value s) as [[v' rest']|].
    + intros H; inversion H; subst. eapply IH; eauto.
    + apply lazy_value_matched.
  - apply lazy_value_matched.
Qed.

Lemma match_here_matched s k v rest :
  match_here s = Some (k, v, rest) -> matched_pair (k, v) = true.
Proof.
  unfold matched_pair. cbn [fst snd].
  revert k v rest. induction s as [|c s IH]; intros k v rest; [discriminate|].
  cbn [match_here]. destruct (is_newline c) eqn:Hc; [discriminate|].
  destruct (colon_value s) as [[v' rest']|] eqn:E.
  - intros H; inversion H; subst. unfold colon_value in E.
    destruct (skip_spaces s) as [|c' s']; [discriminate|].
    destruct (is_char ":" c'); [|discriminate].
    apply spaces_value_matched in E. rewrite <- andb_assoc, E.
    simpl. rewrite no_char_cons, Hc. reflexivity.
  - destruct (match_here s) as [[[k' v'] rest']|]; [|discriminate].
    intros H; inversion H; subst. specialize (IH _ _ _ eq_refl).
    rewrite <- andb_assoc in IH |- *.
    andb_split IH IHk IHv.
    apply andb_true_iff in IHk. destruct IHk as [_ IHk].
    rewrite IHv. simpl. now rewrite no_char_cons, Hc, IHk.
Qed.

Lemma findall_from_matched n : forall s,
  forallb matched_pair (findall_from n s) = true.
Proof.
  induction n as [|n IH]; intros s; simpl; auto.
  destruct s as [|c s]; auto.
  destruct (match_here (String c s)) as [[[k v] rest]|] eqn:E; auto.
  simpl. now rewrite (match_here_matched _ E), IH.
Qed.

(* A clean value before its semicolon is what the lazy group takes. *)
Lemma lazy_value_clean v rest :
  v <> "" ->
  no_char (fun c => is_char ";" c || is_newline c) v = true ->
  lazy_value (v ++ String ";" rest) = Some (v, rest).
Proof.
  induction v as [|c v IH]; intros Hne Hv; [congruence|].
  rewrite no_char_cons in Hv. andb_split Hv Hc Hv.
  apply negb_true_iff, orb_false_iff in Hc. destruct Hc as [_ Hc].
  cbn [append lazy_value]. rewrite Hc.
  destruct v as [|c' v'].
  - simpl. reflexivity.
  - assert (Hc' : is_char ";" c' = false).
    { rewrite no_char_cons in Hv. apply andb_true_iff in Hv. destruct Hv as [Hc' _]. now apply negb_true_iff, orb_false_iff in Hc'. }
    change (String c' v' ++ String ";" rest)
      with (String c' (v' ++ String ";" rest)).
    cbv beta match. rewrite Hc'.
    change (String c' (v' ++ String ";" rest))
      with (String c' v' ++ String ";" rest).
    rewrite IH by (auto; discriminate). reflexivity.
Qed.

Lemma spaces_value_clean n v rest :
  clean_value v = true ->
  spaces_value (spaces n ++ v ++ String ";" rest) = Some (v, rest).
Proof.
  intros Hv. unfold clean_value in Hv. andb_split Hv Hhead Hv.
  induction n as [|n IH].
  - destruct v as [|c v]; [discriminate|]. apply negb_true_iff in Hhead.
    change (spaces 0 ++ String c v ++ String ";" rest)
      with (String c (v ++ String ";" rest)).
    cbn [spaces_value]. rewrite Hhead.
    change (String c (v ++ String ";" rest)) with (String c v ++ String ";" rest).
    apply lazy_value_clean; [discriminate|assumption].
  - change (spaces (S n) ++ v ++ String ";" rest)
      with (String " " (spaces n ++ v ++ String ";" rest)).
    cbn [spaces_value]. change (is_char " " " ") with true. cbv iota.
    now rewrite IH.
Qed.

Lemma skip_spaces_colon n s :
  skip_spaces (spaces n ++ String ":" s) = String ":" s.
Proof. induction n as [|n IH]; [reflexivity|exact IH]. Qed.

Lemma colon_value_clean n m v rest :
  clean_value v = true ->
  colon_value (spaces n ++ String ":" (spaces m ++ v ++ String ";" rest))
  = Some (v, rest).
Proof.
  intros Hv. unfold colon_value. rewrite skip_spaces_colon.
  change (is_char ":" ":") with true. cbv iota. now apply spaces_value_clean.
Qed.

Lemma colon_value_inside c s :
  is_char ":" c || is_char " " c = false -> colon_value (String c s) = None.
Proof.
  intros H. apply orb_false_iff in H. destruct H as [Hcolon Hspace].
  unfold colon_value. cbn [skip_spaces]. now rewrite Hspace, Hcolon.
Qed.

Lemma match_here_clean k n m v rest :
  clean_property k = true -> clean_value v = true ->
  match_here (k ++ spaces n ++ String ":" (spaces m ++ v ++ String ";" rest))
  = Some (k, v, rest).
Proof.
  intros Hk Hv. unfold clean_property in Hk. andb_split Hk Hne Hk.
  induction k as [|c k IH]; [discriminate|]. clear Hne.
  rewrite no_char_cons in Hk. andb_split Hk Hc Hk.
  apply negb_true_iff, orb_false_iff in Hc. destruct Hc as [_ Hc].
  cbn [append match_here]. rewrite Hc.
  destruct k as [|c' k'].
  - cbn [append]. now rewrite colon_value_clean.
  - assert (Hc' : is_char ":" c' || is_char " " c' = false).
    { rewrite no_char_cons in Hk. apply andb_true_iff in Hk. destruct Hk as [Hc' _]. now apply negb_true_iff, orb_false_iff in Hc'. }
    change (String c' k' ++ ?x) with (String c' (k' ++ x)) at 1.
    cbn [append]. rewrite colon_value_inside by exact Hc'.
    change (String c' (k' ++ spaces n
                       ++ String ":" (spaces m ++ v ++ String ";" rest)))
      with (String c' k' ++ spaces n
            ++ String ":" (spaces m ++ v ++ String ";" rest)).
    rewrite IH by auto. reflexivity.
Qed.

Lemma declaration_app pad kv rest :
  declaration pad kv ++ rest
  = fst kv ++ spaces (fst pad)
    ++ String ":" (spaces (snd pad) ++ snd kv ++ String ";" rest).
Proof.
  unfold declaration. rewrite !append_assoc. reflexivity.
Qed.

(* Clean declarations come back as they were written, in order. *)
Lemma findall_declarations decls :
  forallb (fun d : (nat * nat) * (string * string) =>
             clean_property (fst (snd d)) && clean_value (snd (snd d)))
          decls = true ->
  _styleRegex_findall (declarations decls) = map snd decls.
Proof.
  induction decls as [|[pad [k v]] decls IH]; intros H; [reflexivity|].
  cbn [forallb fst snd] in H. andb_split H Hkv H.
  andb_split Hkv Hk Hv.
  cbn [declarations map snd]. rewrite declaration_app. cbn [fst snd].
  rewrite (findall_match _ (@match_here_clean k (fst pad) (snd pad) v _ Hk Hv)).
  now rewrite IH.
Qed.

(** ** The styles the consumer keeps *)

Lemma parse_styles_fold k pairs : forall d,
  dict_get k
    (fold_left
       (fun d (kv : string * string) =>
          if mem (fst kv) _allowedStyles then dict_set (fst kv) (snd kv) d else d)
       pairs d)
  = match (if mem k _allowedStyles then last_value k pairs else None) with
    | Some v => Some v
    | None => dict_get k d
    end.
Proof.
  induction pairs as [|[k' v'] pairs IH]; intros d; cbn [fold_left last_value fst snd].
  - now destruct (mem k _allowedStyles).
  - rewrite IH. destruct (mem k _allowedStyles) eqn:Hk.
    + destruct (last_value k pairs); auto.
      destruct (String.eqb_spec k k') as [<-|Hne].
      * rewrite Hk. apply dict_get_set_same.
      * destruct (mem k' _allowedStyles); auto.
        now apply dict_get_set_other.
    + destruct (mem k' _allowedStyles) eqn:Hk'; auto.
      apply dict_get_set_other. congruence.
Qed.

(** C9 (as the code has it).  [findall] is total.  Every pair it returns
    has a non-empty property and a non-empty value without newline.  A
    text made of declarations, each a property (no colon, space or
    newline), any number of spaces, a colon, any number of spaces, a value
    (no semicolon or newline, no leading space) and a semicolon, is read
    back as exactly these pairs in order.  At the consumer the dictionary
    maps a whitelisted property to the value of its last pair, and holds
    no other property. *)
Theorem style_declaration_parsing :
  forall style decls k,
    forallb (fun d : (nat * nat) * (string * string) =>
               clean_property (fst (snd d)) && clean_value (snd (snd d)))
            decls = true ->
    forallb matched_pair (_styleRegex_findall style) = true
    /\ _styleRegex_findall (declarations decls) = map snd decls
    /\ dict_get k (parse_styles style)
       = if mem k _allowedStyles
         then last_value k (_styleRegex_findall style) else None.
Proof.
  intros style decls k Hclean. split; [apply findall_from_matched|].
  split; [now apply findall_declarations|].
  unfold parse_styles. rewrite parse_styles_fold. simpl.
  now destruct (if mem k _allowedStyles then _ else _).
Qed.

Lemma style_declaration_parsing_example :
  _styleRegex_findall "color:red;font-weight  : bold;color : blue;"
  = [("color", "red"); ("font-weight", "bold"); ("color", "blue")]
  /\ dict_get "color"
       (parse_styles "color:red;font-weight  : bold;color : blue;")
     = Some "blue".
Proof.
  destruct (@style_declaration_parsing
              "color:red;font-weight  : bold;color : blue;"
              [((0, 0), ("color", "red")); ((2, 1), ("font-weight", "bold"));
               ((1, 1), ("color", "blue"))]%nat
              "color" eq_refl) as [_ [Hfind Hget]].
  split; [exact Hfind|exact Hget].
Defined.

(** C9, the claim as stated: a fragment without colon is not skipped and
    a pair with an empty property or an empty value is not dropped.  Each
    is taken into the neighbouring pair, whose property or value it
    spoils, and the consumer then loses the declaration that followed;
    white space after a semicolon becomes part of the next property. *)
Lemma style_fragments_are_not_skipped :
  _styleRegex_findall "foo;color:red;" = [("foo;color", "red")]
  /\ parse_styles "foo;color:red;" = []
  /\ _styleRegex_findall ":red;color:blue;" = [(":red;color", "blue")]
  /\ _styleRegex_findall "color:;font-style:italic;"
     = [("color", ";font-style:italic")]
  /\ _styleRegex_findall "color:red; font-style:italic;"
     = [("color", "red"); (" font-style", "italic")]
  /\ parse_styles "color:red; font-style:italic;" = [("color", "red")].
Proof. repeat split; reflexivity. Qed.

(** ** A kept attribute without value makes the start tag raise *)

Lemma NoDup_keys_parse_attributes attrs : NoDup (keys (parse_attributes attrs)).
Proof.
  unfold parse_attributes.
  assert (H0 : NoDup (keys [("style", Some "")])).
  { repeat constructor. simpl; tauto. }
  revert H0. generalize [("style", Some "")].
  induction attrs as [|[k v] attrs IH]; simpl; intros d Hd; auto.
  apply IH. destruct (mem k _allowedAttributes); auto.
  now apply NoDup_keys_dict_set.
Qed.

Lemma not_all_valued d :
  NoDup (keys d) -> all_valued d = false -> exists k, dict_get k d = Some None.
Proof.
  unfold all_valued. induction d as [|[k [v|]] d IH]; simpl; intros Hnd H.
  - discriminate.
  - inversion Hnd; subst. destruct (IH H3 H) as [k' Hk']. exists k'.
    destruct (String.eqb_spec k' k) as [->|]; auto.
    exfalso. apply H2. apply dict_get_In in Hk'.
    change k with (fst (k, @None string)). now apply in_map.
  - exists k. now rewrite String.eqb_refl.
Qed.

Lemma attr_items_raises k d :
  In (k, None) d -> attr_items d = Raise AttributeError.
Proof.
  induction d as [|[k' [v|]] d IH]; simpl; intros H; [tauto| |reflexivity].
  destruct H as [H|H]; [discriminate|]. now rewrite IH.
Qed.

Lemma attr_string_raises k d :
  dict_get k d = Some None -> attr_string d = Raise AttributeError.
Proof.
  intros H. apply dict_get_In in H. unfold attr_string.
  destruct d as [|kv d]; [destruct H|].
  now rewrite (attr_items_raises _ _ H).
Qed.

(* Without a value for an attribute that is kept there is no start tag:
   TypeError for [style], AttributeError otherwise, unless the download
   raised first. *)
Lemma starttag_text_raises env tag attrs :
  kept_valued attrs = false -> exists e, starttag_text env tag attrs = Raise e.
Proof.
  intros H. unfold kept_valued in H.
  destruct (not_all_valued _ (NoDup_keys_parse_attributes attrs) H) as [k Hk].
  unfold starttag_text, sanitize_attributes.
  destruct (parse_attributes_has_style attrs) as [[style|] Hstyle];
    rewrite Hstyle; [|simpl; eauto].
  assert (Hne : k <> "style") by congruence.
  cbn [bind]. set (d := styled _ _).
  assert (Hd : dict_get k d = Some None).
  { subst d. now rewrite styled_get_other. }
  clearbody d. unfold cure_image.
  destruct (String.eqb tag "img").
  - destruct (dict_get "src" d) as [[imageUrl|]|] eqn:Hsrc.
    + destruct (downloadMedia env imageUrl) as [imageData|e]; [|simpl; eauto].
      cbn [bind]. assert (Hksrc : k <> "src") by congruence.
      destruct imageData as [[|c data]|]; cbn [bind].
      * rewrite (attr_string_raises _ _ Hd). simpl; eauto.
      * rewrite (@attr_string_raises k).
        -- simpl; eauto.
        -- now rewrite dict_get_set_other.
      * rewrite (attr_string_raises _ _ Hd). simpl; eauto.
    + simpl; eauto.
    + cbn [bind]. rewrite (attr_string_raises _ _ Hd). simpl; eauto.
  - cbn [bind]. rewrite (attr_string_raises _ _ Hd). simpl; eauto.
Qed.

(** ** What the whitelists do guarantee *)

Lemma keys_dict_set_In (V : Type) k k' (v : V) d :
  In k (keys (dict_set k' v d)) -> k = k' \/ In k (keys d).
Proof.
  rewrite keys_dict_set. destruct (mem k' (keys d)); auto.
  rewrite in_app_iff. simpl. intuition.
Qed.

Lemma keys_dict_del_In (V : Type) k k' (d : dict V) :
  In k (keys (dict_del k' d)) -> In k (keys d).
Proof.
  induction d as [|[k0 v0] d IH]; simpl; auto.
  destruct (String.eqb k' k0); simpl; intuition.
Qed.

(* The attributes of a start tag are names of the whitelist. *)
Lemma attribute_names_whitelisted env tag attrs d d' tips images k :
  sanitize_attributes tag attrs = Ok d ->
  cure_image env tag d = Ok (d', tips, images) ->
  In k (keys d') -> mem k _allowedAttributes = true.
Proof.
  assert (Hparse : forall k, In k (keys (parse_attributes attrs)) ->
                             mem k _allowedAttributes = true).
  { unfold parse_attributes.
    assert (H0 : forall k, In k (keys [("style", Some "")]) ->
                           mem k _allowedAttributes = true).
    { intros k0 [<-|[]]. reflexivity. }
    revert H0. generalize [("style", Some "")].
    induction attrs as [|[k0 v0] attrs IH]; simpl; intros d0 Hd0; auto.
    apply IH. destruct (mem k0 _allowedAttributes) eqn:E; auto.
    intros k1 Hk1. apply keys_dict_set_In in Hk1.
    destruct Hk1 as [->|Hk1]; auto. }
  unfold sanitize_attributes.
  destruct (dict_get "style" (parse_attributes attrs)) as [[style|]|];
    try discriminate.
  intros Hd. inversion Hd; subst d. clear Hd.
  assert (Hstyled : forall k, In k (keys (styled (parse_attributes attrs)
                      (override_styles tag (parse_styles style)))) ->
                    mem k _allowedAttributes = true).
  { intros k0. unfold styled.
    destruct (override_styles tag (parse_styles style)); intros Hk0.
    - apply Hparse. now apply keys_dict_del_In in Hk0.
    - apply keys_dict_set_In in Hk0. destruct Hk0 as [->|Hk0]; auto. }
  unfold cure_image. destruct (String.eqb tag "img").
  - destruct (dict_get "src" _) as [[imageUrl|]|]; try discriminate.
    + destruct (downloadMedia env imageUrl) as [imageData|e]; [|discriminate].
      cbn [bind]. destruct imageData as [[|c data]|];
        intros H; inversion H; subst; auto.
      intros Hk. apply keys_dict_set_In in Hk. destruct Hk as [->|Hk]; auto.
    + intros H; inversion H; subst; auto.
  - intros H; inversion H; subst; auto.
Qed.

Lemma update_keys_In k items : forall d,
  In k (keys (update d items)) -> In k (keys d) \/ In k (keys items).
Proof.
  unfold update. induction items as [|[k' v'] items IH]; simpl; intros d H; auto.
  apply IH in H. destruct H as [H|H]; auto.
  apply keys_dict_set_In in H. intuition.
Qed.

(* The properties of a serialised style are names of the style whitelist
   or entries of the tag's override table. *)
Lemma style_properties_whitelisted tag style k :
  In k (keys (override_styles tag (parse_styles style))) ->
  mem k _allowedStyles = true
  \/ exists table,
       dict_get tag _overrideStyles = Some table /\ In k (keys table).
Proof.
  assert (Hparse : In k (keys (parse_styles style)) ->
                   mem k _allowedStyles = true).
  { unfold parse_styles. generalize (_styleRegex_findall style).
    assert (H0 : In k (keys (@nil (string * string))) ->
                 mem k _allowedStyles = true) by (intros []).
    revert H0. generalize (@nil (string * string)).
    intros d Hd l. revert d Hd.
    induction l as [|[k0 v0] l IH]; simpl; intros d Hd; auto.
    apply IH. destruct (mem k0 _allowedStyles) eqn:E; auto.
    intros Hk. apply keys_dict_set_In in Hk. destruct Hk as [->|Hk]; auto. }
  unfold override_styles.
  destruct (dict_get tag _overrideStyles) as [table|]; auto.
  intros H. apply update_keys_In in H. destruct H as [H|H]; eauto.
Qed.

(** ** The blank-line pass *)

Lemma blank_line_length s rest :
  blank_line s = Some rest -> (String.length rest < String.length s)%nat.
Proof.
  revert rest. induction s as [|c s IH]; simpl; intros rest; [discriminate|].
  destruct (is_space c); [|discriminate].
  destruct (blank_line s) as [rest'|].
  - intros H; inversion H; subst. specialize (IH _ eq_refl). lia.
  - destruct (is_newline c); [|discriminate].
    intros H; inversion H; subst. lia.
Qed.

(* More fuel than the length of the text changes nothing: the pass ends. *)
Lemma strip_blank_lines_fuel n : forall m bol s,
  (String.length s < n)%nat -> (String.length s < m)%nat ->
  strip_blank_lines n bol s = strip_blank_lines m bol s.
Proof.
  induction n as [|n IH]; intros m bol s Hn Hm; [lia|].
  destruct m as [|m]; [lia|]. cbn [strip_blank_lines].
  destruct (if bol then blank_line s else None) as [rest|] eqn:E.
  - assert (Hrest : blank_line s = Some rest) by (destruct bol; congruence).
    apply blank_line_length in Hrest. apply IH; lia.
  - destruct s as [|c s]; auto. simpl in *. f_equal. apply IH; lia.
Qed.

(* A text without newline has no blank line to lose. *)
Lemma re_sub_blank_lines_one_line s :
  no_char is_newline s = true -> re_sub_blank_lines s = s.
Proof.
  assert (Hblank : forall s, no_char is_newline s = true -> blank_line s = None).
  { induction s0 as [|c s0 IH]; simpl; auto. rewrite no_char_cons.
    intros H. andb_split H Hc Hs.
    apply negb_true_iff in Hc. rewrite (IH Hs), Hc. now destruct (is_space c). }
  intros H. unfold re_sub_blank_lines.
  enough (Hany : forall bol, strip_blank_lines (S (String.length s)) bol s = s)
    by apply Hany.
  induction s as [|c s IH]; intros bol.
  - now destruct bol.
  - cbn [String.length strip_blank_lines]. rewrite (Hblank _ H).
    replace (if bol then None else None) with (@None string) by now destruct bol.
    rewrite no_char_cons in H. andb_split H Hc Hs.
    f_equal. now apply IH.
Qed.

(** ** Where the filter lets through what the tables exclude, and where it
    raises *)

Lemma no_override_outside_whitelist tag :
  mem tag _allowedTags = false -> dict_get tag _overrideStyles = None.
Proof.
  unfold _overrideStyles. cbn [dict_get].
  repeat match goal with
         | |- _ -> (if String.eqb tag ?t then _ else _) = _ =>
             destruct (String.eqb_spec tag t) as [->|_];
             [vm_compute; discriminate|]
         end.
  reflexivity.
Qed.

Lemma bare_starttag_text env tag :
  mem tag _allowedTags = false ->
  starttag_text env tag [] = Ok ("<" ++ tag ++ ">", [], []).
Proof.
  intros Hallowed. unfold starttag_text, sanitize_attributes, override_styles.
  rewrite (no_override_outside_whitelist _ Hallowed).
  cbn [parse_attributes fold_left dict_get String.eqb Ascii.eqb Bool.eqb].
  cbn [bind]. change (parse_styles "") with (@nil (string * string)).
  cbn [styled dict_del String.eqb Ascii.eqb Bool.eqb].
  unfold cure_image.
  destruct (String.eqb_spec tag "img") as [->|_]; [discriminate Hallowed|].
  reflexivity.
Qed.

(** C1.  Whitelist closure fails on the start tag of a void element outside
    the tag whitelist: [handle_starttag] neither pushes nor counts it, so
    [writeData] emits it.  The document [<embed src=x>] is returned as it
    came (its value between double quotes), and so are [<image>] and
    [<keygen>], although none of the three names is in [_allowedTags].  In
    general, with the counter at zero, the bare start tag of any void
    element outside [_allowedTags] is written. *)
Theorem void_tag_outside_whitelist_is_emitted :
  forall world,
    mem "embed" _allowedTags = false
    /\ mem "image" _allowedTags = false
    /\ mem "keygen" _allowedTags = false
    /\ clean_tokens world [StartTag "embed" [("src", Some "x")]]
       = Ok ("<embed src=" ++ dquote ++ "x" ++ dquote ++ ">")
    /\ clean_tokens world [StartTag "image" []] = Ok "<image>"
    /\ clean_tokens world [StartTag "keygen" []] = Ok "<keygen>"
    /\ forall st tag,
         mem tag _voidElements = true ->
         mem tag _allowedTags = false ->
         nonAllowedTagCountInStack st = 0 ->
         handle_starttag world st tag []
         = Ok (wrote st ["<" ++ tag ++ ">"] [] (saved st)).
Proof.
  intros world. do 6 (split; [reflexivity|]).
  intros st tag Hvoid Hallowed Hzero.
  unfold handle_starttag, push_tag.
  rewrite Hvoid, (void_not_ignored _ Hvoid), (bare_starttag_text _ _ Hallowed).
  cbn [bind]. unfold writeData, notify, wrote. simpl. rewrite Hzero. simpl.
  now rewrite !app_nil_r.
Qed.

Lemma void_tag_outside_whitelist_is_emitted_source :
  handle_starttag offline init "source" []
  = Ok {| nonAllowedTagCountInStack := 0; output := ["<source>"];
          tagStack := []; parseError := false; tooltips := []; saved := [] |}.
Proof.
  exact (proj2 (proj2 (proj2 (proj2 (proj2 (proj2
           (void_tag_outside_whitelist_is_emitted offline))))))
           init "source" eq_refl eq_refl eq_refl).
Defined.

(** C2.  The filter raises on a whitelisted attribute that has no value:
    for [<a href>] the serialisation calls [cgi.escape(None)]
    (AttributeError), for [<p style>] the style pass calls
    [findall(None)] (TypeError), and for [<img src>] the download calls
    [None.startswith] (AttributeError).  This holds inside a suppressed
    subtree as well, since the attributes are serialised before
    [writeData] looks at the counter.  In general every start tag other
    than html and body that keeps an attribute without value raises, in
    every state; and the filter returns on every document whose kept
    attributes have values when no download raises. *)
Theorem valueless_attribute_raises :
  forall world,
    clean_tokens world [StartTag "a" [("href", None)]] = Raise AttributeError
    /\ clean_tokens world [StartTag "p" [("style", None)]] = Raise TypeError
    /\ clean_tokens world [StartTag "img" [("src", None)]] = Raise AttributeError
    /\ clean_tokens world [StartTag "script" []; StartTag "a" [("title", None)]]
       = Raise AttributeError
    /\ (forall st tag attrs,
          mem tag _ignoredTags = false -> kept_valued attrs = false ->
          exists e, handle_starttag world st tag attrs = Raise e)
    /\ (forall toks,
          reliable world -> forallb token_valued toks = true ->
          exists text, clean_tokens world toks = Ok text).
Proof.
  intros world. do 4 (split; [reflexivity|]). split.
  - intros st tag attrs Hign Hval. unfold handle_starttag. rewrite Hign.
    destruct (starttag_text_raises (world (saved st)) tag _ Hval) as [e ->].
    simpl. eauto.
  - intros toks Hrel Hval. unfold clean_tokens.
    destruct (@feed_returns world toks init Hrel Hval) as [st ->]. simpl. eauto.
Qed.

Lemma valueless_attribute_raises_colspan :
  exists e,
    handle_starttag offline init "td" [("colspan", None); ("class", Some "x")]
    = Raise e.
Proof.
  exact (proj1 (proj2 (proj2 (proj2 (proj2
           (valueless_attribute_raises offline)))))
           init "td" [("colspan", None); ("class", Some "x")] eq_refl eq_refl).
Defined.

(** * Further properties of the filter *)

(** ** The text of a start tag *)

Lemma NoDup_keys_dict_del (V : Type) k (d : dict V) :
  NoDup (keys d) -> NoDup (keys (dict_del k d)).
Proof.
  induction d as [|[k' v'] d IH]; simpl; auto. intros H. inversion H; subst.
  destruct (String.eqb k k'); simpl; auto.
  constructor; auto. intros Hin. apply H2. now apply keys_dict_del_In in Hin.
Qed.

Lemma NoDup_keys_styled attrDict styleDict :
  NoDup (keys attrDict) -> NoDup (keys (styled attrDict styleDict)).
Proof.
  intros H. unfold styled. destruct styleDict.
  - now apply NoDup_keys_dict_del.
  - now apply NoDup_keys_dict_set.
Qed.

(* The items of a dictionary that serialises are its pairs, in order. *)
Lemma attr_items_pairs d items :
  attr_items d = Ok items ->
  exists pairs : list (string * string),
    d = map (fun p => (fst p, Some (snd p))) pairs
    /\ items = map (fun p => fst p ++ "=" ++ dquote ++ cgi_escape (snd p) ++ dquote)
                   pairs.
Proof.
  revert items. induction d as [|[k [v|]] d IH]; simpl; intros items H.
  - inversion H; subst. now exists [].
  - destruct (attr_items d) as [l|e]; [|discriminate]. simpl in H.
    inversion H; subst. destruct (IH l eq_refl) as [pairs [-> ->]].
    now exists ((k, v) :: pairs).
  - discriminate.
Qed.

Lemma join_spaced items : forall item,
  " " ++ join " " (item :: items)
  = String.concat "" (map (fun i => " " ++ i) (item :: items)).
Proof.
  induction items as [|next items IH]; intros item.
  - reflexivity.
  - cbn [map] in *. rewrite concat_cons, <- IH. cbn [join].
    now rewrite !append_assoc.
Qed.



(** ** The style attribute *)

Lemma dict_set_fresh (V : Type) k (v : V) d :
  ~ In k (keys d) -> dict_set k v d = (d ++ [(k, v)])%list.
Proof.
  induction d as [|[k' v'] d IH]; simpl; auto. intros H.
  destruct (String.eqb_spec k k') as [->|_]; [tauto|].
  rewrite IH by tauto. reflexivity.
Qed.

Lemma update_fresh items : forall d,
  NoDup (keys items) -> (forall k, In k (keys items) -> ~ In k (keys d)) ->
  update d items = (d ++ items)%list.
Proof.
  unfold update. induction items as [|[k v] items IH]; intros d Hnd Hfresh.
  - simpl. now rewrite app_nil_r.
  - inversion Hnd; subst. cbn [fold_left fst snd].
    rewrite dict_set_fresh by (apply Hfresh; now left).
    rewrite IH; auto.
    + now rewrite <- app_assoc.
    + intros k' Hk'. unfold keys. rewrite map_app, in_app_iff. simpl.
      intros [Hin|[<-|[]]]; [|tauto].
      apply (Hfresh k'); [now right|exact Hin].
Qed.

(* No override sets a property of the style whitelist. *)
Lemma override_keys_outside_whitelist tag table k :
  dict_get tag _overrideStyles = Some table ->
  In k (keys table) -> mem k _allowedStyles = false.
Proof.
  unfold _overrideStyles. simpl.
  repeat match goal with
         | |- (if ?b then _ else _) = _ -> _ => destruct b
         end;
    intros H; inversion H; subst; simpl;
    intuition (subst; reflexivity).
Qed.

Lemma parse_styles_keys style k :
  In k (keys (parse_styles style)) -> mem k _allowedStyles = true.
Proof.
  intros H.
  destruct (@style_properties_whitelisted "" style k) as [Hk|[table [Ht _]]];
    auto; discriminate.
Qed.

(** X2.  The style a start tag is given is the author's declarations of
    whitelisted properties (one per property, each with its last value)
    followed by the declarations of the tag's override table in the
    table's order; for a tag without table it is the author's part alone.
    The two parts never share a property. *)
Theorem style_is_author_then_overrides :
  forall tag style,
    let table := match dict_get tag _overrideStyles with
                 | Some table => table
                 | None => []
                 end in
    override_styles tag (parse_styles style) = (parse_styles style ++ table)%list
    /\ style_string (override_styles tag (parse_styles style))
       = style_string (parse_styles style) ++ style_string table
    /\ Forall (fun k => mem k _allowedStyles = true) (keys (parse_styles style))
    /\ Forall (fun k => mem k _allowedStyles = false) (keys table)
    /\ NoDup (keys (parse_styles style ++ table)%list).
Proof.
  intros tag style table.
  assert (Hauthor : Forall (fun k => mem k _allowedStyles = true)
                           (keys (parse_styles style))).
  { apply Forall_forall. intros k. apply parse_styles_keys. }
  assert (Htable : Forall (fun k => mem k _allowedStyles = false) (keys table)).
  { apply Forall_forall. intros k. subst table.
    destruct (dict_get tag _overrideStyles) as [t|] eqn:E; [|intros []].
    now apply (override_keys_outside_whitelist tag). }
  assert (Heq : override_styles tag (parse_styles style)
                = (parse_styles style ++ table)%list).
  { subst table. unfold override_styles.
    destruct (dict_get tag _overrideStyles) as [t|] eqn:E.
    - apply update_fresh.
      + now apply (override_tables_NoDup tag).
      + intros k Hk Hin. apply parse_styles_keys in Hin.
        rewrite (override_keys_outside_whitelist tag _ E Hk) in Hin.
        discriminate.
    - now rewrite app_nil_r. }
  split; [exact Heq|]. split; [|split; [exact Hauthor|split; [exact Htable|]]].
  - now rewrite Heq, style_string_app.
  - rewrite <- Heq. unfold override_styles.
    destruct (dict_get tag _overrideStyles).
    + apply NoDup_keys_update, NoDup_keys_parse_styles.
    + apply NoDup_keys_parse_styles.
Qed.

(** ** Override precedence *)











(** ** The counter, the stack and the output *)

Lemma writeData_counter st data :
  nonAllowedTagCountInStack (writeData st data) = nonAllowedTagCountInStack st.
Proof. unfold writeData. now destruct (nonAllowedTagCountInStack st =? 0). Qed.

Lemma push_tag_counter st tag :
  nonAllowedTagCountInStack (push_tag st tag)
  = nonAllowedTagCountInStack st
    + (if opens_suppressed (StartTag tag []) then 1 else 0).
Proof.
  unfold push_tag. simpl.
  destruct (mem tag _voidElements); simpl; [lia|].
  destruct (mem tag _allowedTags); simpl; lia.
Qed.

Lemma handle_counter world st tok st' :
  handle world st tok = Ok st' ->
  nonAllowedTagCountInStack st' = nonAllowedTagCountInStack st + step_of tok.
Proof.
  unfold step_of. destruct tok as [tag attrs|tag|data]; simpl.
  - rewrite handle_starttag_exact.
    destruct (start_error _ tag attrs); [discriminate|].
    intros H; inversion H; subst; clear H.
    pose proof (push_tag_counter st tag) as Hpush. simpl in Hpush.
    destruct (mem tag _ignoredTags); [lia|].
    rewrite writeData_counter. simpl. lia.
  - intros H; inversion H; subst; clear H. unfold handle_endtag.
    destruct (mem tag _voidElements); simpl; [lia|].
    destruct (pop_until tag (tagStack st) (parseError st)) as [stack err].
    destruct (mem tag _allowedTags); simpl; [|lia].
    destruct (mem tag _ignoredTags); [simpl; lia|].
    rewrite writeData_counter. simpl. lia.
  - intros H; inversion H; subst; clear H. unfold handle_data.
    rewrite writeData_counter. lia.
Qed.

(** X3.  The counter is a tally and knows nothing of nesting: after any
    run that returns it is the counter before, plus the number of start
    tags of non-void tags outside the whitelist, minus the number of end
    tags of such tags, whatever the order of the tags and whether or not
    they match. *)
Theorem counter_is_a_tally :
  forall world toks st st',
    feed world toks st = Ok st' ->
    nonAllowedTagCountInStack st' = nonAllowedTagCountInStack st + tally toks.
Proof.
  intros world toks. induction toks as [|tok toks IH]; intros st st'; simpl.
  - intros H; inversion H; subst. lia.
  - destruct (handle world st tok) as [st1|e] eqn:Hstep; [|discriminate].
    simpl. intros Hfeed.
    rewrite (IH _ _ Hfeed), (@handle_counter world st tok st1 Hstep). lia.
Qed.

Lemma counter_is_a_tally_crossed :
  nonAllowedTagCountInStack
    {| nonAllowedTagCountInStack := 1; output := ["<b>"]; tagStack := [];
       parseError := true; tooltips := []; saved := [] |}
  = nonAllowedTagCountInStack init
    + tally [StartTag "b" []; StartTag "font" []; EndTag "b"; Data "lost"].
Proof.
  exact (@counter_is_a_tally offline
           [StartTag "b" []; StartTag "font" []; EndTag "b"; Data "lost"]
           init _ eq_refl).
Defined.

Lemma observe_writeData st1 st2 data :
  observe st1 = observe st2 ->
  observe (writeData st1 data) = observe (writeData st2 data).
Proof.
  unfold observe, writeData. intros H. inversion H as [[Hc Ho Ht Hs]].
  rewrite Hc. destruct (nonAllowedTagCountInStack st2 =? 0); simpl; congruence.
Qed.

Lemma observe_handle world st1 st2 tok :
  observe st1 = observe st2 ->
  result_map observe (handle world st1 tok) = result_map observe (handle world st2 tok).
Proof.
  intros H.
  assert (Hsaved : saved st1 = saved st2) by (unfold observe in H; congruence).
  destruct tok as [tag attrs|tag|data]; simpl.
  - rewrite !handle_starttag_exact, Hsaved.
    destruct (start_error _ tag attrs); [reflexivity|]. simpl. f_equal.
    assert (Hpush : observe (push_tag st1 tag) = observe (push_tag st2 tag)).
    { unfold observe, push_tag in *. inversion H as [[Hc Ho Ht Hs]].
      destruct (mem tag _voidElements); simpl; [congruence|].
      destruct (mem tag _allowedTags); congruence. }
    destruct (mem tag _ignoredTags); [exact Hpush|].
    apply observe_writeData. unfold observe, notify in *. simpl.
    inversion Hpush. congruence.
  - f_equal. unfold handle_endtag.
    destruct (mem tag _voidElements); [exact H|].
    destruct (pop_until tag (tagStack st1) (parseError st1)) as [stack1 err1].
    destruct (pop_until tag (tagStack st2) (parseError st2)) as [stack2 err2].
    unfold observe in H. inversion H as [[Hc Ho Ht Hs]].
    destruct (mem tag _allowedTags).
    + destruct (mem tag _ignoredTags).
      * unfold observe; simpl; congruence.
      * apply observe_writeData. unfold observe; simpl; congruence.
    + unfold observe; simpl; congruence.
  - f_equal. unfold handle_data. now apply observe_writeData.
Qed.

Lemma observe_feed world toks : forall st1 st2,
  observe st1 = observe st2 ->
  result_map observe (feed world toks st1) = result_map observe (feed world toks st2).
Proof.
  induction toks as [|tok toks IH]; intros st1 st2 H; simpl.
  - now rewrite H.
  - pose proof (@observe_handle world st1 st2 tok H) as Hstep.
    destruct (handle world st1 tok) as [s1|e1], (handle world st2 tok) as [s2|e2];
      simpl in Hstep; try discriminate.
    + cbn [bind]. apply IH. congruence.
    + cbn [bind result_map] in *. exact Hstep.
Qed.

(** X4.  The stack and the error flag are only written, never read for
    what the filter answers: two runs of the same tokens from states with
    the same counter, output and tooltips raise the same exception or end
    with the same counter, output and tooltips, whatever their stacks and
    flags are.  The repair of mismatched end tags changes nothing the
    caller sees. *)
Theorem stack_and_flag_are_not_observed :
  forall world toks st1 st2,
    observe st1 = observe st2 ->
    result_map observe (feed world toks st1) = result_map observe (feed world toks st2).
Proof.
  intros world toks st1 st2 H. now apply observe_feed.
Qed.

Lemma stack_and_flag_are_not_observed_anchor :
  result_map observe
    (feed offline [EndTag "i"; Data "x"; EndTag "b"]
       {| nonAllowedTagCountInStack := 0; output := ["<b>"];
          tagStack := ["u"; "b"]; parseError := false; tooltips := [];
          saved := [] |})
  = result_map observe
      (feed offline [EndTag "i"; Data "x"; EndTag "b"]
         {| nonAllowedTagCountInStack := 0; output := ["<b>"];
            tagStack := []; parseError := true; tooltips := []; saved := [] |}).
Proof.
  exact (@stack_and_flag_are_not_observed offline
           [EndTag "i"; Data "x"; EndTag "b"] _ _ eq_refl).
Defined.

(** X5.  What is written stays written: a run that returns leaves the
    earlier output and tooltips as a prefix of the new ones, and what it
    adds does not depend on them (the same run after any other output and
    tooltips adds the same and ends with the same counter, stack and
    flag). *)
Theorem output_only_grows :
  forall world toks st st',
    feed world toks st = Ok st' ->
    exists out tips,
      output st' = (output st ++ out)%list
      /\ tooltips st' = (tooltips st ++ tips)%list
      /\ forall before notes,
           feed world toks
             {| nonAllowedTagCountInStack := nonAllowedTagCountInStack st;
                output := before;
                tagStack := tagStack st;
                parseError := parseError st;
                tooltips := notes;
                saved := saved st |}
           = Ok {| nonAllowedTagCountInStack := nonAllowedTagCountInStack st';
                   output := before ++ out;
                   tagStack := tagStack st';
                   parseError := parseError st';
                   tooltips := notes ++ tips;
                   saved := saved st' |}.
Proof.
  intros world toks st st' H. rewrite feed_quiet in H.
  destruct (feed world toks (quiet st)) as [q|e] eqn:Hq; [|discriminate].
  simpl in H. inversion H; subst; clear H.
  exists (output q), (tooltips q). repeat split.
  intros before notes.
  pose proof (feed_rebase world toks before notes (quiet st)) as Hrun.
  rewrite Hq in Hrun. unfold rebase, quiet in Hrun. simpl in Hrun.
  rewrite !app_nil_r in Hrun. exact Hrun.
Qed.

Lemma output_only_grows_anchor :
  exists out tips,
    ["kept"; "<b>"; "x"] = (["kept"] ++ out)%list
    /\ @nil string = ([] ++ tips)%list
    /\ forall before notes,
         feed offline [StartTag "b" []; Data "x"]
           {| nonAllowedTagCountInStack := 0; output := before;
              tagStack := []; parseError := false; tooltips := notes;
              saved := [] |}
         = Ok {| nonAllowedTagCountInStack := 0; output := before ++ out;
                 tagStack := ["b"]; parseError := false;
                 tooltips := notes ++ tips; saved := [] |}.
Proof.
  exact (@output_only_grows offline [StartTag "b" []; Data "x"]
           {| nonAllowedTagCountInStack := 0; output := ["kept"];
              tagStack := []; parseError := false; tooltips := [];
              saved := [] |}
           _ eq_refl).
Defined.

(** ** Documents of whitelisted tags, and unclosed suppressed elements *)

Lemma saved_writeData st data : saved (writeData st data) = saved st.
Proof. unfold writeData. now destruct (nonAllowedTagCountInStack st =? 0). Qed.

Lemma saved_push_tag st tag : saved (push_tag st tag) = saved st.
Proof. unfold push_tag. now destruct (mem tag _voidElements). Qed.

Lemma saved_handle_endtag st tag : saved (handle_endtag st tag) = saved st.
Proof.
  unfold handle_endtag. destruct (mem tag _voidElements); [reflexivity|].
  destruct (pop_until tag (tagStack st) (parseError st)) as [stack err].
  destruct (mem tag _allowedTags); [|reflexivity].
  destruct (mem tag _ignoredTags); [reflexivity|]. now rewrite saved_writeData.
Qed.

(* The images saved after a callback. *)
Lemma saved_handle world st tok st' :
  handle world st tok = Ok st' ->
  saved st' = (saved st ++ token_images (world (saved st)) tok)%list.
Proof.
  destruct tok as [tag attrs|tag|data]; cbn [handle token_images].
  - rewrite handle_starttag_exact.
    destruct (start_error _ tag attrs); [discriminate|].
    intros H; inversion H; subst; clear H.
    destruct (mem tag _ignoredTags) eqn:Hign.
    + rewrite images_of_ignored by exact Hign.
      now rewrite saved_push_tag, app_nil_r.
    + rewrite saved_writeData. unfold notify. cbn [saved].
      now rewrite saved_push_tag.
  - intros H; inversion H; subst. now rewrite saved_handle_endtag, app_nil_r.
  - intros H; inversion H; subst. unfold handle_data.
    now rewrite saved_writeData, app_nil_r.
Qed.

Lemma handle_at_zero world st tok st' :
  nonAllowedTagCountInStack st = 0 ->
  opens_suppressed tok = false -> closes_suppressed tok = false ->
  handle world st tok = Ok st' ->
  output st' = (output st ++ emit (world (saved st)) tok)%list
  /\ nonAllowedTagCountInStack st' = 0.
Proof.
  intros Hzero Hopen Hclose Hstep.
  pose proof (@handle_counter world st tok st' Hstep) as Hcount.
  unfold step_of in Hcount. rewrite Hopen, Hclose, Hzero in Hcount.
  split; [|lia].
  destruct tok as [tag attrs|tag|data]; simpl in *.
  - rewrite handle_starttag_exact in Hstep.
    destruct (start_error _ tag attrs); [discriminate|].
    inversion Hstep; subst; clear Hstep.
    assert (Hpush : output (push_tag st tag) = output st
                    /\ nonAllowedTagCountInStack (push_tag st tag) = 0).
    { unfold push_tag. destruct (mem tag _voidElements); auto.
      destruct (mem tag _allowedTags); [auto|discriminate]. }
    destruct Hpush as [Hout Hc].
    destruct (mem tag _ignoredTags); [now rewrite Hout, app_nil_r|].
    unfold writeData, notify. simpl. rewrite Hc. simpl. now rewrite Hout.
  - inversion Hstep; subst; clear Hstep. unfold handle_endtag.
    destruct (mem tag _voidElements); [now rewrite app_nil_r|].
    destruct (pop_until tag (tagStack st) (parseError st)) as [stack err].
    destruct (mem tag _ignoredTags) eqn:Hign.
    + rewrite (ignored_allowed _ Hign). simpl. now rewrite app_nil_r.
    + destruct (mem tag _allowedTags); [|discriminate].
      unfold writeData. simpl. rewrite Hzero. reflexivity.
  - inversion Hstep; subst; clear Hstep. unfold handle_data, writeData.
    rewrite Hzero. reflexivity.
Qed.

Lemma feed_at_zero world toks : forall st st',
  nonAllowedTagCountInStack st = 0 ->
  forallb (fun t => negb (opens_suppressed t) && negb (closes_suppressed t))
          toks = true ->
  feed world toks st = Ok st' ->
  output st' = (output st ++ emitted world (saved st) toks)%list
  /\ nonAllowedTagCountInStack st' = 0.
Proof.
  induction toks as [|tok toks IH]; intros st st' Hzero Hok; cbn [feed emitted].
  - intros H; inversion H; subst. now rewrite app_nil_r.
  - simpl in Hok. andb_split Hok Htok Hrest. andb_split Htok Hopen Hclose.
    apply negb_true_iff in Hopen. apply negb_true_iff in Hclose.
    destruct (handle world st tok) as [st1|e] eqn:Hstep; [|discriminate].
    destruct (@handle_at_zero world st tok st1 Hzero Hopen Hclose Hstep)
      as [Hout Hzero1].
    cbn [bind]. intros Hfeed.
    destruct (IH st1 st' Hzero1 Hrest Hfeed) as [Hout' Hz].
    split; [|exact Hz].
    rewrite Hout', Hout, (saved_handle _ _ _ Hstep). now rewrite <- app_assoc.
Qed.

(** X6.  With whitelisted and void tags only, nothing is dropped and
    nesting does not matter: starting with the counter at zero, a run over
    tokens none of which is the start or end tag of a non-void tag outside
    the whitelist writes every token, in order: each text as it is, each
    start tag other than html and body sanitized, each end tag of an
    allowed non-void tag other than html and body, matched or stray; the
    counter is zero again at the end.  The run returns when the kept
    attributes have values and no download raises. *)
Theorem whitelisted_tokens_are_all_written :
  forall world toks st,
    nonAllowedTagCountInStack st = 0 ->
    forallb (fun t => negb (opens_suppressed t) && negb (closes_suppressed t))
            toks = true ->
    (forall st', feed world toks st = Ok st' ->
                 output st' = (output st ++ emitted world (saved st) toks)%list
                 /\ nonAllowedTagCountInStack st' = 0)
    /\ (reliable world -> forallb token_valued toks = true ->
        exists st',
          feed world toks st = Ok st'
          /\ output st' = (output st ++ emitted world (saved st) toks)%list).
Proof.
  intros world toks st Hzero Hok. split.
  - intros st'. now apply feed_at_zero.
  - intros Hrel Hval. destruct (@feed_returns world toks st Hrel Hval) as [st' H].
    exists st'. split; [exact H|].
    now destruct (@feed_at_zero world toks st st' Hzero Hok H).
Qed.

Lemma whitelisted_tokens_are_all_written_crossed :
  exists st',
    feed offline [EndTag "p"; StartTag "b" []; StartTag "body" [("x", None)];
                  Data "t"; StartTag "i" []; EndTag "b"; EndTag "br"] init
    = Ok st'
    /\ output st' = ["</p>"; "<b>"; "t"; "<i>"; "</b>"].
Proof.
  exact (proj2 (@whitelisted_tokens_are_all_written offline
                  [EndTag "p"; StartTag "b" []; StartTag "body" [("x", None)];
                   Data "t"; StartTag "i" []; EndTag "b"; EndTag "br"]
                  init eq_refl eq_refl)
               offline_reliable eq_refl).
Defined.

Lemma handle_above_zero world st tok st' :
  0 < nonAllowedTagCountInStack st ->
  closes_suppressed tok = false ->
  handle world st tok = Ok st' ->
  output st' = output st
  /\ 0 < nonAllowedTagCountInStack st'.
Proof.
  intros Hpos Hclose Hstep.
  pose proof (@handle_counter world st tok st' Hstep) as Hcount.
  unfold step_of in Hcount. rewrite Hclose in Hcount.
  assert (Hpos' : 0 < nonAllowedTagCountInStack st').
  { destruct (opens_suppressed tok); lia. }
  split; [|exact Hpos'].
  destruct tok as [tag attrs|tag|data]; simpl in *.
  - rewrite handle_starttag_exact in Hstep.
    destruct (start_error _ tag attrs); [discriminate|].
    inversion Hstep; subst; clear Hstep.
    assert (Hpush : output (push_tag st tag) = output st
                    /\ 0 < nonAllowedTagCountInStack (push_tag st tag)).
    { unfold push_tag. destruct (mem tag _voidElements); auto.
      destruct (mem tag _allowedTags); simpl; split; auto; lia. }
    destruct Hpush as [Hout Hc].
    destruct (mem tag _ignoredTags); [exact Hout|].
    rewrite writeData_suppressed by (simpl; lia). exact Hout.
  - inversion Hstep; subst; clear Hstep. unfold handle_endtag.
    destruct (mem tag _voidElements); [reflexivity|].
    destruct (pop_until tag (tagStack st) (parseError st)) as [stack err].
    destruct (mem tag _allowedTags); [|reflexivity].
    destruct (mem tag _ignoredTags); [reflexivity|].
    now rewrite writeData_suppressed by (simpl; lia).
  - inversion Hstep; subst; clear Hstep. unfold handle_data.
    now rewrite writeData_suppressed by lia.
Qed.

Lemma feed_above_zero world toks : forall st st',
  0 < nonAllowedTagCountInStack st ->
  forallb (fun t => negb (closes_suppressed t)) toks = true ->
  feed world toks st = Ok st' ->
  output st' = output st /\ 0 < nonAllowedTagCountInStack st'.
Proof.
  induction toks as [|tok toks IH]; intros st st' Hpos Hok; simpl.
  - intros H; inversion H; subst. auto.
  - simpl in Hok. andb_split Hok Hclose Hrest. apply negb_true_iff in Hclose.
    destruct (handle world st tok) as [st1|e] eqn:Hstep; [|discriminate].
    destruct (@handle_above_zero world st tok st1 Hpos Hclose Hstep) as [Hout Hpos1].
    simpl. intros Hfeed. destruct (IH st1 st' Hpos1 Hrest Hfeed) as [Hout' Hp].
    split; [congruence|exact Hp].
Qed.

(** X7.  An element outside the whitelist that is never closed swallows
    the rest of the document: after the start tag of a non-void tag outside
    the whitelist, met with a counter of zero or more, nothing is written
    for as long as no end tag of a non-void tag outside the whitelist
    arrives, whatever end tags of allowed tags (the element's parents
    included) come by; the counter stays positive. *)
Theorem unclosed_suppressed_element_swallows_the_rest :
  forall world st tag attrs rest,
    mem tag _voidElements = false ->
    mem tag _allowedTags = false ->
    0 <= nonAllowedTagCountInStack st ->
    forallb (fun t => negb (closes_suppressed t)) rest = true ->
    (forall st', feed world (StartTag tag attrs :: rest) st = Ok st' ->
                 output st' = output st
                 /\ 0 < nonAllowedTagCountInStack st')
    /\ (reliable world -> kept_valued attrs = true ->
        forallb token_valued rest = true ->
        exists st',
          feed world (StartTag tag attrs :: rest) st = Ok st'
          /\ output st' = output st).
Proof.
  intros world st tag attrs rest Hvoid Hallowed Hcount Hrest.
  assert (Hpartial : forall st', feed world (StartTag tag attrs :: rest) st = Ok st' ->
                                 output st' = output st
                                 /\ 0 < nonAllowedTagCountInStack st').
  { intros st' Hfeed. cbn [feed] in Hfeed.
    destruct (handle world st (StartTag tag attrs)) as [st1|e] eqn:Hstep;
      [|discriminate].
    cbn [bind] in Hfeed.
    pose proof (@handle_counter world st (StartTag tag attrs) st1 Hstep) as Hc. unfold step_of in Hc.
    simpl in Hc. rewrite Hvoid, Hallowed in Hc. simpl in Hc.
    assert (Hout1 : output st1 = output st).
    { simpl in Hstep. rewrite handle_starttag_exact in Hstep.
      destruct (start_error _ tag attrs); [discriminate|].
      inversion Hstep; subst; clear Hstep.
      assert (Hign : mem tag _ignoredTags = false).
      { destruct (mem tag _ignoredTags) eqn:E; auto.
        apply ignored_allowed in E. congruence. }
      rewrite Hign in *. rewrite writeData_counter in Hc.
      rewrite writeData_suppressed by (simpl in *; lia).
      unfold push_tag. rewrite Hvoid. reflexivity. }
    destruct (@feed_above_zero world rest st1 st' ltac:(lia) Hrest Hfeed)
      as [Hout Hpos].
    split; [congruence|exact Hpos]. }
  split; [exact Hpartial|].
  intros Hrel Hattrs Hval.
  destruct (@feed_returns world (StartTag tag attrs :: rest) st Hrel) as [st' H].
  { simpl. now rewrite Hattrs, Hval. }
  exists st'. split; [exact H|]. now apply Hpartial.
Qed.

Lemma unclosed_suppressed_element_swallows_the_rest_font :
  exists st',
    feed offline [StartTag "font" [("color", Some "red")]; Data "a";
                  EndTag "p"; StartTag "p" []; Data "b"; EndTag "p"]
         {| nonAllowedTagCountInStack := 0; output := ["<p>"];
            tagStack := ["p"]; parseError := false; tooltips := [];
            saved := [] |}
    = Ok st'
    /\ output st' = ["<p>"].
Proof.
  exact (proj2 (@unclosed_suppressed_element_swallows_the_rest offline
                  {| nonAllowedTagCountInStack := 0; output := ["<p>"];
                     tagStack := ["p"]; parseError := false; tooltips := [];
                     saved := [] |}
                  "font" [("color", Some "red")]
                  [Data "a"; EndTag "p"; StartTag "p" []; Data "b"; EndTag "p"]
                  eq_refl eq_refl ltac:(simpl; lia) eq_refl)
               offline_reliable eq_refl eq_refl).
Defined.

(** ** End tags and the stack of open tags *)

Lemma pop_until_found tag below : forall above err,
  ~ In tag above ->
  pop_until tag (above ++ tag :: below) err
  = (tag :: below, err || match above with [] => false | _ :: _ => true end).
Proof.
  induction above as [|top above IH]; intros err Hnot.
  - simpl. now rewrite String.eqb_refl, orb_false_r.
  - simpl. destruct (String.eqb top tag) eqn:E.
    + apply String.eqb_eq in E. subst. exfalso. apply Hnot. now left.
    + rewrite IH by (intros H; apply Hnot; now right).
      simpl. now rewrite orb_true_r.
Qed.

Lemma pop_until_missing tag : forall stack err,
  ~ In tag stack ->
  pop_until tag stack err
  = ([], err || match stack with [] => false | _ :: _ => true end).
Proof.
  induction stack as [|top stack IH]; intros err Hnot.
  - simpl. now rewrite orb_false_r.
  - simpl. destruct (String.eqb top tag) eqn:E.
    + apply String.eqb_eq in E. subst. exfalso. apply Hnot. now left.
    + rewrite IH by (intros H; apply Hnot; now right).
      simpl. now rewrite orb_true_r.
Qed.

Lemma handle_endtag_stack st tag :
  mem tag _voidElements = false ->
  tagStack (handle_endtag st tag)
  = tl (fst (pop_until tag (tagStack st) (parseError st)))
  /\ parseError (handle_endtag st tag)
     = snd (pop_until tag (tagStack st) (parseError st)).
Proof.
  intros Hvoid. unfold handle_endtag. rewrite Hvoid.
  destruct (pop_until tag (tagStack st) (parseError st)) as [stack err].
  destruct (mem tag _allowedTags); [|auto].
  destruct (mem tag _ignoredTags); [auto|].
  unfold writeData. simpl.
  destruct (nonAllowedTagCountInStack st =? 0); auto.
Qed.

(** X8.  How an end tag repairs the stack.  For a tag that is not void:
    when the tag is open, the end tag closes its innermost occurrence and
    every tag opened after it, and sets parseError exactly when there was
    such a tag to discard (the flag is never cleared); when the tag is not
    open at all, the end tag empties the whole stack, closing every open
    element, and sets parseError when the stack was not empty. *)
Theorem endtag_closes_up_to_the_innermost_match :
  forall st tag above,
    mem tag _voidElements = false ->
    ~ In tag above ->
    (forall below,
        tagStack st = (above ++ tag :: below)%list ->
        tagStack (handle_endtag st tag) = below
        /\ parseError (handle_endtag st tag)
           = parseError st || match above with [] => false | _ :: _ => true end)
    /\ (tagStack st = above ->
        tagStack (handle_endtag st tag) = []
        /\ parseError (handle_endtag st tag)
           = parseError st || match above with [] => false | _ :: _ => true end).
Proof.
  intros st tag above Hvoid Hnot.
  destruct (@handle_endtag_stack st tag Hvoid) as [Hstack Herr].
  split.
  - intros below Heq. rewrite Hstack, Herr, Heq.
    now rewrite pop_until_found by exact Hnot.
  - intros Heq. rewrite Hstack, Herr, Heq.
    now rewrite pop_until_missing by exact Hnot.
Qed.

Lemma endtag_closes_up_to_the_innermost_match_nested :
  (tagStack (handle_endtag
               {| nonAllowedTagCountInStack := 0; output := [];
                  tagStack := ["i"; "b"; "p"; "b"; "div"];
                  parseError := false; tooltips := []; saved := [] |} "p")
   = ["b"; "div"]
   /\ parseError (handle_endtag
                    {| nonAllowedTagCountInStack := 0; output := [];
                       tagStack := ["i"; "b"; "p"; "b"; "div"];
                       parseError := false; tooltips := []; saved := [] |} "p")
      = true)
  /\ (tagStack (handle_endtag
                  {| nonAllowedTagCountInStack := 0; output := [];
                     tagStack := ["i"; "b"];
                     parseError := false; tooltips := []; saved := [] |} "p")
      = []).
Proof.
  split.
  - refine (proj1 (@endtag_closes_up_to_the_innermost_match
                     {| nonAllowedTagCountInStack := 0; output := [];
                        tagStack := ["i"; "b"; "p"; "b"; "div"];
                        parseError := false; tooltips := []; saved := [] |}
                     "p" ["i"; "b"] eq_refl _) ["b"; "div"] eq_refl).
    simpl. intros [H|[H|[]]]; discriminate H.
  - refine (proj1 (proj2 (@endtag_closes_up_to_the_innermost_match
                     {| nonAllowedTagCountInStack := 0; output := [];
                        tagStack := ["i"; "b"];
                        parseError := false; tooltips := []; saved := [] |}
                     "p" ["i"; "b"] eq_refl _) eq_refl)).
    simpl. intros [H|[H|[]]]; discriminate H.
Defined.

(** ** Well-formed documents and the ignored tags *)

(** X9.  On a well-formed document the one-pass filter is the recursive
    sanitizer.  For a sequence of balanced trees fed in a state whose
    counter is not negative, the run raises the first exception of the
    document or returns the state it started from with, appended to the
    output when the counter is zero, the recursive sanitization of the
    trees (text kept, void tags written, allowed elements rebuilt around
    their sanitized children, html and body replaced by their children,
    elements of other non-void tags dropped whole), with the tooltips of
    the trees appended and the images of the trees saved; the counter, the
    stack and parseError are as before the run.  Each tree is sanitized in
    the world as the trees before it left it. *)
Theorem streaming_filter_is_the_tree_recursion :
  forall world ns st,
    forallb balanced ns = true ->
    0 <= nonAllowedTagCountInStack st ->
    feed world (flat_map events ns) st
    = match first_some world (first_error world) (saved st) ns with
      | Some e => Raise e
      | None =>
          Ok {| nonAllowedTagCountInStack := nonAllowedTagCountInStack st;
                output := output st
                          ++ (if nonAllowedTagCountInStack st =? 0
                              then in_turn world (sanitize_tree world)
                                           (saved st) ns
                              else []);
                tagStack := tagStack st;
                parseError := parseError st;
                tooltips := tooltips st
                            ++ in_turn world (tree_tips world) (saved st) ns;
                saved := fold_left (tree_saved world) ns (saved st) |}
      end.
Proof.
  intros world ns st Hbal Hst.
  assert (Hall : Forall (fun n => forall st0,
                           0 <= nonAllowedTagCountInStack st0 ->
                           feed world (events n) st0 = answer world st0 [n]) ns).
  { apply Forall_forall. intros n Hn st0 Hst0. apply feed_tree; [|exact Hst0].
    rewrite forallb_forall in Hbal. now apply Hbal. }
  rewrite (@feed_forest world ns Hall st Hst). reflexivity.
Qed.

Lemma streaming_filter_is_the_tree_recursion_page :
  feed offline
       (flat_map events
          [Elem "html" [("lang", Some "en")]
             [Elem "body" []
                [Elem "p" [] [Text "a"; Void "br" [];
                              Elem "script" [] [Text "x"]];
                 Text "b"]]])
       init
  = Ok {| nonAllowedTagCountInStack := 0;
          output := ["<p>"; "a"; "<br>"; "</p>"; "b"];
          tagStack := []; parseError := false; tooltips := []; saved := [] |}.
Proof.
  exact (@streaming_filter_is_the_tree_recursion offline
           [Elem "html" [("lang", Some "en")]
              [Elem "body" []
                 [Elem "p" [] [Text "a"; Void "br" [];
                               Elem "script" [] [Text "x"]];
                  Text "b"]]]
           init eq_refl ltac:(simpl; lia)).
Defined.

Lemma handle_ignored world st tok :
  ignored_token tok = true ->
  exists st', handle world st tok = Ok st' /\ observe st' = observe st.
Proof.
  destruct tok as [tag attrs|tag|data]; simpl; intros Hign; [| |discriminate].
  - unfold handle_starttag. rewrite Hign. eexists. split; [reflexivity|].
    unfold push_tag. destruct (mem tag _voidElements); [reflexivity|].
    rewrite (ignored_allowed _ Hign). reflexivity.
  - eexists. split; [reflexivity|]. unfold handle_endtag.
    destruct (mem tag _voidElements); [reflexivity|].
    destruct (pop_until tag (tagStack st) (parseError st)) as [stack err].
    rewrite (ignored_allowed _ Hign), Hign. reflexivity.
Qed.

Lemma feed_without_ignored world toks : forall st,
  result_map observe
    (feed world (filter (fun t => negb (ignored_token t)) toks) st)
  = result_map observe (feed world toks st).
Proof.
  induction toks as [|tok toks IH]; intros st; [reflexivity|].
  cbn [filter]. destruct (ignored_token tok) eqn:Hign; cbn [negb].
  - destruct (@handle_ignored world st tok Hign) as [st1 [Hstep Hobs]].
    cbn [feed]. rewrite Hstep. cbn [bind].
    rewrite IH. apply observe_feed. now symmetry.
  - cbn [feed]. destruct (handle world st tok) as [st1|e]; cbn [bind].
    + apply IH.
    + reflexivity.
Qed.

(** X10.  The start and end tags of html and body are transparent
    wherever they stand and whatever their attributes are (a value-less
    attribute included): the filter answers on a token stream what it
    answers on the stream without those tags, the same text or the same
    exception.  They are pushed and popped on the stack only. *)
Theorem ignored_tags_are_transparent :
  forall world toks,
    clean_tokens world toks
    = clean_tokens world (filter (fun t => negb (ignored_token t)) toks).
Proof.
  intros world toks. unfold clean_tokens.
  pose proof (@feed_without_ignored world toks init) as H.
  destruct (feed world toks init) as [st|e],
           (feed world (filter (fun t => negb (ignored_token t)) toks) init)
             as [st'|e']; simpl in H; try discriminate.
  - cbn [bind]. unfold flush, observe in *. inversion H as [[Hc Ho Ht]].
    now rewrite Ho.
  - cbn [bind]. congruence.
Qed.

(** ** The pass that removes blank lines *)

Lemma blank_line_strip_false s : forall fuel,
  blank_line s = None -> blank_line (strip_blank_lines fuel false s) = None.
Proof.
  induction s as [|c s IH]; intros fuel H; destruct fuel as [|fuel];
    cbn [strip_blank_lines]; try exact H.
  cbn [blank_line] in *. destruct (is_space c); [|reflexivity].
  destruct (blank_line s) eqn:E; [discriminate|].
  destruct (is_newline c); [discriminate|].
  now rewrite IH.
Qed.

Lemma clean_lines_strip fuel : forall bol s,
  (String.length s < fuel)%nat ->
  clean_lines bol (strip_blank_lines fuel bol s) = true.
Proof.
  induction fuel as [|fuel IH]; intros bol s Hlen; [lia|].
  cbn [strip_blank_lines].
  destruct (if bol then blank_line s else None) as [rest|] eqn:E.
  - destruct bol; [|discriminate].
    apply IH. apply blank_line_length in E. lia.
  - destruct s as [|c s]; [now destruct bol|].
    cbn [clean_lines]. apply andb_true_iff. split.
    + destruct bol; [|reflexivity].
      cbn [blank_line] in *. destruct (is_space c); [|reflexivity].
      destruct (blank_line s) eqn:E2; [discriminate|].
      destruct (is_newline c); [discriminate|].
      now rewrite blank_line_strip_false.
    + apply IH. simpl in Hlen. lia.
Qed.

Lemma strip_clean_lines s : forall fuel bol,
  clean_lines bol s = true -> strip_blank_lines fuel bol s = s.
Proof.
  induction s as [|c s IH]; intros fuel bol H; destruct fuel as [|fuel];
    cbn [strip_blank_lines]; try reflexivity.
  - now destruct bol.
  - cbn [clean_lines] in H. andb_split H Hhere Hrest.
    assert (E : (if bol then blank_line (String c s) else None) = None).
    { destruct bol; [|reflexivity].
      destruct (blank_line (String c s)); [discriminate|reflexivity]. }
    rewrite E. f_equal. now apply IH.
Qed.

(** X11.  The pass that removes blank lines is final: in its result no
    line that ends in a newline is empty or made of white space only (at
    no start of a line does white space run up to a newline; white space
    after the last newline stays), and running the pass again changes
    nothing. *)
Theorem no_blank_line_is_left :
  forall s,
    clean_lines true (re_sub_blank_lines s) = true
    /\ re_sub_blank_lines (re_sub_blank_lines s) = re_sub_blank_lines s.
Proof.
  intros s.
  assert (H : clean_lines true (re_sub_blank_lines s) = true).
  { unfold re_sub_blank_lines. apply clean_lines_strip. lia. }
  split; [exact H|].
  unfold re_sub_blank_lines at 1. now apply strip_clean_lines.
Qed.

Lemma visible_blank_line s : forall rest,
  blank_line s = Some rest -> visible s = visible rest.
Proof.
  induction s as [|c s IH]; intros rest; cbn [blank_line visible];
    [discriminate|].
  destruct (is_space c); [|discriminate].
  destruct (blank_line s) as [rest'|].
  - intros H; inversion H; subst. now apply IH.
  - destruct (is_newline c); [|discriminate].
    intros H; inversion H; subst. reflexivity.
Qed.

Lemma visible_strip fuel : forall bol s,
  visible (strip_blank_lines fuel bol s) = visible s.
Proof.
  induction fuel as [|fuel IH]; intros bol s; [reflexivity|].
  cbn [strip_blank_lines].
  destruct (if bol then blank_line s else None) as [rest|] eqn:E.
  - destruct bol; [|discriminate].
    rewrite IH. symmetry. now apply visible_blank_line.
  - destruct s as [|c s]; [reflexivity|].
    cbn [visible]. now rewrite IH.
Qed.

Lemma length_strip fuel : forall bol s,
  (String.length (strip_blank_lines fuel bol s) <= String.length s)%nat.
Proof.
  induction fuel as [|fuel IH]; intros bol s; [simpl; lia|].
  cbn [strip_blank_lines].
  destruct (if bol then blank_line s else None) as [rest|] eqn:E.
  - destruct bol; [|discriminate].
    apply blank_line_length in E. specialize (IH true rest). lia.
  - destruct s as [|c s]; [simpl; lia|].
    simpl. specialize (IH (is_newline c) s). lia.
Qed.

(** X12.  The pass that removes blank lines deletes white space and
    nothing else: the characters of its result that are not white space are
    those of the text, in the same order, and the result is not longer than
    the text. *)
Theorem blank_line_pass_deletes_white_space_only :
  forall s,
    visible (re_sub_blank_lines s) = visible s
    /\ (String.length (re_sub_blank_lines s) <= String.length s)%nat.
Proof.
  intros s. unfold re_sub_blank_lines. split.
  - apply visible_strip.
  - apply length_strip.
Qed.

(** ** The paste command *)

Lemma feed_raises world tag attrs toks :
  In (StartTag tag attrs) toks ->
  mem tag _ignoredTags = false -> kept_valued attrs = false ->
  forall st, exists e, feed world toks st = Raise e.
Proof.
  intros Hin Hign Hval.
  induction toks as [|tok toks IH]; intros st; [destruct Hin|].
  cbn [feed]. destruct (handle world st tok) as [st1|e] eqn:Hstep;
    cbn [bind]; [|eauto].
  destruct Hin as [->|Hin]; [|now apply IH].
  exfalso. simpl in Hstep. unfold handle_starttag in Hstep. rewrite Hign in Hstep.
  destruct (starttag_text_raises (world (saved st)) tag _ Hval) as [e He].
  rewrite He in Hstep. discriminate Hstep.
Qed.

(** X13.  What the paste command pastes.  When the clipboard holds html
    in which some start tag other than html and body keeps a whitelisted
    attribute without value, onHtmlCopy pastes the clipboard's html as it
    is, unfiltered, whatever else the document contains: the exception of
    the filter is swallowed by the bare except.  When every kept attribute
    has a value and no download raises, it pastes the text that
    cleanTag returns. *)
Theorem paste_falls_back_to_the_raw_html :
  forall tokenize world html,
    (forall tag attrs,
        In (StartTag tag attrs) (tokenize html) ->
        mem tag _ignoredTags = false -> kept_valued attrs = false ->
        onHtmlCopy tokenize world (Some html) = Some html)
    /\ (reliable world -> forallb token_valued (tokenize html) = true ->
        exists text,
          cleanTag tokenize world html = Ok text
          /\ onHtmlCopy tokenize world (Some html) = Some text).
Proof.
  intros tokenize world html. split.
  - intros tag attrs Hin Hign Hval. unfold onHtmlCopy, cleanTag, clean_tokens.
    destruct (@feed_raises world tag attrs (tokenize html) Hin Hign Hval init)
      as [e ->].
    reflexivity.
  - intros Hrel Hval. unfold onHtmlCopy, cleanTag, clean_tokens.
    destruct (@feed_returns world (tokenize html) init Hrel Hval) as [st ->].
    cbn [bind]. eauto.
Qed.

Lemma paste_falls_back_to_the_raw_html_script :
  onHtmlCopy
    (fun _ => [StartTag "script" []; Data "x"; EndTag "script";
               StartTag "a" [("href", None)]])
    offline (Some "<script>x</script><a href>")
  = Some "<script>x</script><a href>".
Proof.
  refine (proj1 (@paste_falls_back_to_the_raw_html
                   (fun _ => [StartTag "script" []; Data "x"; EndTag "script";
                              StartTag "a" [("href", None)]])
                   offline "<script>x</script><a href>")
                "a" [("href", None)] _ eq_refl eq_refl).
  simpl. auto.
Defined.

(** ** Escaping *)

Lemma cgi_escape_cons c s :
  cgi_escape (String c s)
  = ((if Ascii.eqb c "&" then "&amp;"
      else if Ascii.eqb c "<" then "&lt;"
      else if Ascii.eqb c ">" then "&gt;"
      else String c EmptyString) ++ cgi_escape s)%string.
Proof. reflexivity. Qed.

Lemma cgi_escape_no_bracket s :
  no_char (fun c => is_char "<" c || is_char ">" c) (cgi_escape s) = true.
Proof.
  induction s as [|c s IH]; [reflexivity|].
  rewrite cgi_escape_cons. unfold is_char in *.
  destruct (Ascii.eqb c "&") eqn:Hamp; [simpl; rewrite !no_char_cons; now rewrite IH|].
  destruct (Ascii.eqb c "<") eqn:Hlt; [simpl; rewrite !no_char_cons; now rewrite IH|].
  destruct (Ascii.eqb c ">") eqn:Hgt; [simpl; rewrite !no_char_cons; now rewrite IH|].
  simpl. rewrite no_char_cons, Hlt, Hgt, IH. reflexivity.
Qed.

(** ** Duplicate attributes *)

Lemma parse_attributes_fold k attrs : forall d0,
  dict_get k
    (fold_left
       (fun d (a : attr) =>
          if mem (fst a) _allowedAttributes then dict_set (fst a) (snd a) d else d)
       attrs d0)
  = if mem k _allowedAttributes then
      match last_attr k attrs with
      | Some v => Some v
      | None => dict_get k d0
      end
    else dict_get k d0.
Proof.
  induction attrs as [|[k' v] attrs IH]; intros d0; cbn [fold_left last_attr].
  - now destruct (mem k _allowedAttributes).
  - rewrite IH. cbn [fst snd].
    destruct (String.eqb_spec k k') as [<-|Hne].
    + destruct (mem k _allowedAttributes); [|reflexivity].
      destruct (last_attr k attrs); [reflexivity|].
      apply dict_get_set_same.
    + assert (Hget : dict_get k (if mem k' _allowedAttributes
                                 then dict_set k' v d0 else d0)
                     = dict_get k d0).
      { destruct (mem k' _allowedAttributes); [|reflexivity].
        now apply dict_get_set_other. }
      rewrite Hget. now destruct (last_attr k attrs).
Qed.

(** X15.  Which value an attribute gets.  After the attribute loop the
    dictionary maps a whitelisted name to the value of the last attribute
    of that name in the tag (None when that one has no value), maps style
    to the empty text when the tag has no style attribute, and has no
    entry for any other name; the first entry of the dictionary is always
    style, wherever the author wrote it. *)
Theorem last_duplicate_attribute_wins :
  forall attrs k,
    dict_get k (parse_attributes attrs)
    = (if mem k _allowedAttributes then
         match last_attr k attrs with
         | Some v => Some v
         | None => if String.eqb k "style" then Some (Some "") else None
         end
       else None)
    /\ hd_error (keys (parse_attributes attrs)) = Some "style".
Proof.
  intros attrs k. split.
  - unfold parse_attributes. rewrite parse_attributes_fold. simpl.
    destruct (String.eqb_spec k "style") as [->|Hne]; reflexivity.
  - unfold parse_attributes.
    enough (H : forall d0 : dict (option string),
               hd_error (keys d0) = Some "style" ->
               hd_error (keys (fold_left
                 (fun d (a : attr) =>
                    if mem (fst a) _allowedAttributes
                    then dict_set (fst a) (snd a) d else d) attrs d0))
               = Some "style") by (apply H; reflexivity).
    induction attrs as [|[k' v] attrs IH]; intros d0 H0; cbn [fold_left];
      [exact H0|].
    apply IH. cbn [fst snd]. destruct (mem k' _allowedAttributes); [|exact H0].
    destruct d0 as [|[k0 v0] d0]; [discriminate H0|].
    simpl. now destruct (String.eqb k' k0).
Qed.

(** ** Files and network *)

Lemma cure_image_idle env tag attrs d :
  fetches (StartTag tag attrs) = false ->
  sanitize_attributes tag attrs = Ok d ->
  cure_image env tag d = Ok (d, [], []).
Proof.
  intros Hfetch Hs. unfold cure_image.
  destruct (String.eqb tag "img") eqn:Himg; [|reflexivity].
  simpl in Hfetch. rewrite Himg in Hfetch. simpl in Hfetch.
  assert (Hsrc : dict_get "src" d = None).
  { unfold sanitize_attributes in Hs.
    destruct (dict_get "style" (parse_attributes attrs)) as [[style|]|];
      try discriminate.
    inversion Hs; subst. rewrite styled_get_other by discriminate.
    unfold parse_attributes. rewrite parse_attributes_fold.
    change (mem "src" _allowedAttributes) with true. cbv iota.
    destruct (last_attr "src" attrs); [discriminate|reflexivity]. }
  now rewrite Hsrc.
Qed.

Lemma starttag_text_idle env env' tag attrs :
  fetches (StartTag tag attrs) = false ->
  starttag_text env tag attrs = starttag_text env' tag attrs
  /\ (forall text tips images,
        starttag_text env tag attrs = Ok (text, tips, images) ->
        tips = [] /\ images = []).
Proof.
  intros Hfetch. unfold starttag_text.
  destruct (sanitize_attributes tag attrs) as [d|e] eqn:Hs; cbn [bind];
    [|split; [reflexivity|discriminate]].
  rewrite (@cure_image_idle env tag attrs d Hfetch Hs),
          (@cure_image_idle env' tag attrs d Hfetch Hs).
  split; [reflexivity|]. cbn [bind].
  destruct (attr_string d); cbn [bind]; [|discriminate].
  intros text tips images H. now inversion H.
Qed.

Lemma handle_idle world world' st tok :
  fetches tok = false ->
  handle world st tok = handle world' st tok
  /\ (forall st', handle world st tok = Ok st' ->
                  tooltips st' = tooltips st /\ saved st' = saved st).
Proof.
  intros Hfetch.
  destruct tok as [tag attrs|tag|data]; cbn [handle].
  - destruct (@starttag_text_idle (world (saved st)) (world' (saved st))
                tag attrs Hfetch) as [Heq Hnone].
    unfold handle_starttag. rewrite <- Heq.
    assert (Hpush : tooltips (push_tag st tag) = tooltips st
                    /\ saved (push_tag st tag) = saved st).
    { unfold push_tag. now destruct (mem tag _voidElements). }
    split; [reflexivity|].
    destruct (mem tag _ignoredTags); [intros st' H; now inversion H|].
    destruct (starttag_text (world (saved st)) tag attrs)
      as [[[text tips] images]|e]; cbn [bind]; [|discriminate].
    intros st' H. inversion H; subst.
    destruct (Hnone text tips images eq_refl) as [-> ->].
    unfold writeData, notify. simpl.
    destruct (nonAllowedTagCountInStack (push_tag st tag) =? 0); simpl;
      now rewrite !app_nil_r.
  - split; [reflexivity|]. intros st' H. inversion H; subst.
    rewrite saved_handle_endtag. split; [|reflexivity].
    unfold handle_endtag. destruct (mem tag _voidElements); [reflexivity|].
    destruct (pop_until tag (tagStack st) (parseError st)) as [stack err].
    destruct (mem tag _allowedTags); [|reflexivity].
    destruct (mem tag _ignoredTags); [reflexivity|].
    unfold writeData. simpl. now destruct (nonAllowedTagCountInStack st =? 0).
  - split; [reflexivity|]. intros st' H. inversion H; subst.
    unfold handle_data, writeData.
    now destruct (nonAllowedTagCountInStack st =? 0).
Qed.

(** X16.  Only images reach the file system and the network.  When no
    token is the start tag of an img that has a src attribute, the filter
    answers the same in every world (same exception, or same final state),
    raises no tooltip and saves no image: downloadMedia and
    SaveImageToMedia are called for img tags with a src and for nothing
    else. *)
Theorem only_images_reach_the_environment :
  forall world world' toks st,
    forallb (fun t => negb (fetches t)) toks = true ->
    feed world toks st = feed world' toks st
    /\ (forall st', feed world toks st = Ok st' ->
                    tooltips st' = tooltips st /\ saved st' = saved st).
Proof.
  intros world world' toks. induction toks as [|tok toks IH]; intros st Hidle.
  - split; [reflexivity|]. intros st' H. now inversion H.
  - simpl in Hidle. andb_split Hidle Htok Hrest. apply negb_true_iff in Htok.
    destruct (@handle_idle world world' st tok Htok) as [Heq Hsame].
    cbn [feed]. rewrite <- Heq.
    destruct (handle world st tok) as [st1|e]; cbn [bind].
    + destruct (IH st1 Hrest) as [Hfeed Hkeep]. split; [exact Hfeed|].
      intros st' H. destruct (Hkeep st' H) as [-> ->]. now apply Hsame.
    + split; [reflexivity|discriminate].
Qed.

Lemma only_images_reach_the_environment_alt :
  feed numbering
       [StartTag "img" [("alt", Some "a")]; StartTag "a" [("href", Some "u")];
        Data "t"; EndTag "a"] init
  = feed offline
       [StartTag "img" [("alt", Some "a")]; StartTag "a" [("href", Some "u")];
        Data "t"; EndTag "a"] init.
Proof.
  exact (proj1 (@only_images_reach_the_environment numbering offline
                  [StartTag "img" [("alt", Some "a")];
                   StartTag "a" [("href", Some "u")]; Data "t"; EndTag "a"]
                  init eq_refl)).
Defined.

(** ** Style texts that the regular expression cannot read *)

Lemma no_char_skip_spaces bad s :
  no_char bad s = true -> no_char bad (skip_spaces s) = true.
Proof.
  induction s as [|c s IH]; [auto|]. cbn [skip_spaces].
  destruct (is_char " " c); [|auto].
  rewrite no_char_cons. intros H. andb_split H Hc Hs. now apply IH.
Qed.

Lemma lazy_value_no_semicolon s :
  no_char (is_char ";") s = true -> lazy_value s = None.
Proof.
  induction s as [|c s IH]; [reflexivity|].
  rewrite no_char_cons. intros H. andb_split H Hc Hs.
  cbn [lazy_value]. destruct (is_newline c); [reflexivity|].
  destruct s as [|c' s']; [reflexivity|].
  rewrite (IH Hs). rewrite no_char_cons in Hs. andb_split Hs Hc' Hs'.
  apply negb_true_iff in Hc'. now rewrite Hc'.
Qed.

Lemma spaces_value_no_semicolon s :
  no_char (is_char ";") s = true -> spaces_value s = None.
Proof.
  induction s as [|c s IH]; [reflexivity|]. intros H.
  pose proof (lazy_value_no_semicolon _ H) as Hlazy.
  rewrite no_char_cons in H. andb_split H Hc Hs.
  cbn [spaces_value]. rewrite (IH Hs), Hlazy. now destruct (is_char " " c).
Qed.

Lemma colon_value_unreadable s :
  no_char (is_char ";") s = true \/ no_char (is_char ":") s = true ->
  colon_value s = None.
Proof.
  intros H. unfold colon_value.
  destruct H as [H|H]; apply no_char_skip_spaces in H;
    destruct (skip_spaces s) as [|c s']; try reflexivity;
    rewrite no_char_cons in H; andb_split H Hc Hs.
  - rewrite (spaces_value_no_semicolon _ Hs). now destruct (is_char ":" c).
  - apply negb_true_iff in Hc. now rewrite Hc.
Qed.

Lemma match_here_unreadable s :
  no_char (is_char ";") s = true \/ no_char (is_char ":") s = true ->
  match_here s = None.
Proof.
  induction s as [|c s IH]; [reflexivity|]. intros H.
  assert (Htail : no_char (is_char ";") s = true
                  \/ no_char (is_char ":") s = true).
  { destruct H as [H|H]; rewrite no_char_cons in H; andb_split H Hc Hs; auto. }
  cbn [match_here]. rewrite (colon_value_unreadable _ Htail), (IH Htail).
  now destruct (is_newline c).
Qed.

Lemma findall_from_unreadable fuel : forall s,
  no_char (is_char ";") s = true \/ no_char (is_char ":") s = true ->
  findall_from fuel s = [].
Proof.
  induction fuel as [|fuel IH]; intros s H; [reflexivity|].
  cbn [findall_from]. destruct s as [|c s]; [reflexivity|].
  rewrite (match_here_unreadable _ H). apply IH.
  destruct H as [H|H]; rewrite no_char_cons in H; andb_split H Hc Hs; auto.
Qed.

(** X17.  A style text without a semicolon, or without a colon, is read
    as no declaration at all: the regular expression needs both, so the
    common form 'color:red' with no closing semicolon yields nothing.  A
    tag without an entry in _overrideStyles that has such a style and no
    other attribute is written bare, the style attribute dropped. *)
Theorem style_without_semicolon_is_dropped :
  forall s,
    no_char (is_char ";") s = true \/ no_char (is_char ":") s = true ->
    _styleRegex_findall s = []
    /\ (forall env tag,
          dict_get tag _overrideStyles = None ->
          starttag_text env tag [("style", Some s)]
          = Ok ("<" ++ tag ++ ">", [], [])).
Proof.
  intros s H.
  assert (Hfind : _styleRegex_findall s = [])
    by (unfold _styleRegex_findall; now apply findall_from_unreadable).
  split; [exact Hfind|].
  intros env tag Htable.
  unfold starttag_text, sanitize_attributes, parse_attributes.
  change (fold_left _ [("style", Some s)] [("style", Some "")])
    with (if mem "style" _allowedAttributes
          then dict_set "style" (Some s) [("style", Some "")]
          else [("style", Some "")]).
  change (mem "style" _allowedAttributes) with true. cbv iota.
  cbn [dict_set dict_get String.eqb Ascii.eqb Bool.eqb].
  unfold parse_styles. rewrite Hfind. cbn [fold_left].
  unfold override_styles. rewrite Htable.
  cbn [styled dict_del String.eqb Ascii.eqb Bool.eqb bind].
  unfold cure_image. cbn [dict_get].
  destruct (String.eqb tag "img"); reflexivity.
Qed.

Lemma style_without_semicolon_is_dropped_span :
  _styleRegex_findall "color:red" = []
  /\ starttag_text unplugged "span" [("style", Some "color:red")]
     = Ok ("<span>", [], []).
Proof.
  destruct (@style_without_semicolon_is_dropped "color:red"
              (or_introl eq_refl)) as [Hfind Htag].
  split; [exact Hfind|].
  exact (Htag unplugged "span" eq_refl).
Defined.

(** ** Images on the local disk *)

Lemma sanitize_attributes_src tag attrs d :
  sanitize_attributes tag attrs = Ok d ->
  dict_get "src" d = last_attr "src" attrs.
Proof.
  unfold sanitize_attributes.
  destruct (dict_get "style" (parse_attributes attrs)) as [[style|]|];
    try discriminate.
  intros H. inversion H; subst. rewrite styled_get_other by discriminate.
  unfold parse_attributes. rewrite parse_attributes_fold.
  change (mem "src" _allowedAttributes) with true. cbv iota.
  now destruct (last_attr "src" attrs).
Qed.

Lemma downloadMedia_file env path :
  downloadMedia env ("file://" ++ path)
  = match env_read env (if windows_path path then drop 1 path else path) with
    | Content data => Ok (Some data)
    | Failure e => Raise e
    | OSError =>
        request env (if windows_path path then drop 1 path else path)
    end.
Proof.
  unfold downloadMedia, local_read.
  change (startswith "file://" ("file://" ++ path)) with (String.prefix "" path).
  change (drop 7 ("file://" ++ path)) with path.
  destruct path; reflexivity.
Qed.

(** X18.  An image given by a file:// url.  The path opened is the url
    without the prefix file://, and without the slash before a drive
    letter when it starts with slash, letter, colon, backslash.  The tag
    of the image depends on the environment through that file, through
    what SaveImageToMedia answers and, only when opening the file raises
    OSError, through the answer of urlopen for that same path (the prefix
    already removed); urlopen is never asked about the url itself, and not
    at all when the file can be read. *)
Theorem local_image_is_read_from_disk :
  forall env env' path attrs,
    last_attr "src" attrs = Some (Some ("file://" ++ path)) ->
    env_read env' (if windows_path path then drop 1 path else path)
    = env_read env (if windows_path path then drop 1 path else path) ->
    (forall data, SaveImageToMedia env' data = SaveImageToMedia env data) ->
    (env_read env (if windows_path path then drop 1 path else path) = OSError ->
     env_urlopen env' (if windows_path path then drop 1 path else path)
     = env_urlopen env (if windows_path path then drop 1 path else path)) ->
    starttag_text env' "img" attrs = starttag_text env "img" attrs.
Proof.
  intros env env' path attrs Hsrc Hread Hsave Hopen.
  unfold starttag_text.
  destruct (sanitize_attributes "img" attrs) as [d|e] eqn:Hs; cbn [bind];
    [|reflexivity].
  assert (Hcure : cure_image env' "img" d = cure_image env "img" d).
  { unfold cure_image. cbn [String.eqb Ascii.eqb Bool.eqb].
    rewrite (sanitize_attributes_src _ _ Hs), Hsrc.
    rewrite !downloadMedia_file, Hread.
    destruct (env_read env (if windows_path path then drop 1 path else path))
      as [|data|e].
    - unfold request. rewrite (Hopen eq_refl).
      now destruct (env_urlopen env
                      (if windows_path path then drop 1 path else path)).
    - cbn [bind]. destruct data; [reflexivity|]. now rewrite Hsave.
    - reflexivity. }
  now rewrite Hcure.
Qed.

Lemma local_image_is_read_from_disk_drive :
  starttag_text (with_urlopen drive (fun _ => Crash OtherError))
                "img" [("src", Some "file:///C:\a.png")]
  = starttag_text drive "img" [("src", Some "file:///C:\a.png")].
Proof.
  refine (@local_image_is_read_from_disk
            drive (with_urlopen drive (fun _ => Crash OtherError))
            "/C:\a.png" [("src", Some "file:///C:\a.png")]
            eq_refl eq_refl (fun _ => eq_refl) _).
  simpl. discriminate.
Defined.

(** ** Images that were downloaded *)

Lemma attr_string_pairs d attrStr :
  attr_string d = Ok attrStr ->
  exists pairs : list (string * string),
    d = map (fun p => (fst p, Some (snd p))) pairs
    /\ attrStr
       = String.concat ""
           (map (fun p => " " ++ fst p ++ "=" ++ dquote
                          ++ cgi_escape (snd p) ++ dquote) pairs).
Proof.
  unfold attr_string. destruct d as [|kv d]; intros Hstr.
  - inversion Hstr; subst. now exists [].
  - destruct (attr_items (kv :: d)) as [items|e] eqn:Hitems; [|discriminate].
    cbn [bind] in Hstr. inversion Hstr; subst; clear Hstr.
    destruct (attr_items_pairs _ Hitems) as [pairs [Hpairs ->]].
    exists pairs. split; [exact Hpairs|].
    destruct pairs as [|p pairs]; [discriminate Hpairs|].
    rewrite <- (map_map
                  (fun p0 => fst p0 ++ "=" ++ dquote ++ cgi_escape (snd p0) ++ dquote)
                  (fun item => " " ++ item)).
    set (item := fun p0 : string * string =>
                   fst p0 ++ "=" ++ dquote ++ cgi_escape (snd p0) ++ dquote).
    change (map item (p :: pairs)) with (item p :: map item pairs).
    now rewrite <- join_spaced.
Qed.

(** X19.  Where the src of an image ends up.  For an img tag whose last
    src attribute is [url], when the tag is serialised: if downloadMedia
    returned bytes that are not empty (those of a local file: an answered
    request raises), the src written is the name that SaveImageToMedia
    returned for them (the empty name of an invalid image included), the
    bytes are what was passed to SaveImageToMedia and no tooltip is raised;
    if it returned None or empty bytes, the src written is [url] itself,
    nothing is saved and the one tooltip is 'Failed to download url'.
    Either way src is written once, escaped. *)
Theorem image_src_is_the_saved_name :
  forall env attrs url text tips images,
    last_attr "src" attrs = Some (Some url) ->
    starttag_text env "img" attrs = Ok (text, tips, images) ->
    exists pairs : list (string * string),
      text = "<img"
             ++ String.concat ""
                  (map (fun p => " " ++ fst p ++ "=" ++ dquote
                                 ++ cgi_escape (snd p) ++ dquote) pairs)
             ++ ">"
      /\ NoDup (map fst pairs)
      /\ match downloadMedia env url with
         | Ok (Some (String c data)) =>
             In ("src", SaveImageToMedia env (String c data)) pairs
             /\ tips = [] /\ images = [String c data]
         | _ =>
             In ("src", url) pairs
             /\ tips = ["Failed to download " ++ url] /\ images = []
         end.
Proof.
  intros env attrs url text tips images Hsrc H. unfold starttag_text in H.
  destruct (sanitize_attributes "img" attrs) as [d|e] eqn:Hd; [|discriminate].
  cbn [bind] in H.
  pose proof (sanitize_attributes_src _ _ Hd) as Hget. rewrite Hsrc in Hget.
  assert (Hnd : NoDup (keys d)).
  { unfold sanitize_attributes in Hd.
    destruct (dict_get "style" (parse_attributes attrs)) as [[style|]|];
      try discriminate.
    inversion Hd; subst. apply NoDup_keys_styled, NoDup_keys_parse_attributes. }
  destruct (cure_image env "img" d) as [[[d' tips'] images']|e] eqn:Hcure;
    [|discriminate].
  cbn [bind] in H.
  destruct (attr_string d') as [attrStr|e] eqn:Hstr; [|discriminate].
  cbn [bind] in H. inversion H; subst; clear H.
  destruct (attr_string_pairs _ Hstr) as [pairs [Hpairs ->]].
  assert (Hin : forall v, dict_get "src" d' = Some (Some v) -> In ("src", v) pairs).
  { intros v Hv. apply dict_get_In in Hv. rewrite Hpairs in Hv.
    apply in_map_iff in Hv. destruct Hv as [[k v'] [Heq Hp]].
    cbn [fst snd] in Heq. inversion Heq; subst. exact Hp. }
  assert (Hkeys : NoDup (keys d') -> NoDup (map fst pairs)).
  { rewrite Hpairs. unfold keys. rewrite map_map. cbn [fst]. auto. }
  exists pairs. split; [reflexivity|]. clear Hpairs Hstr.
  unfold cure_image in Hcure. cbn [String.eqb Ascii.eqb Bool.eqb] in Hcure.
  rewrite Hget in Hcure.
  destruct (downloadMedia env url) as [[[|c data]|]|e]; cbn [bind] in Hcure;
    try discriminate; inversion Hcure; subst; clear Hcure.
  - split; [now apply Hkeys|]. split; [now apply Hin|]. now split.
  - split.
    + apply Hkeys. now apply NoDup_keys_dict_set.
    + split; [|now split]. apply Hin. apply dict_get_set_same.
  - split; [now apply Hkeys|]. split; [now apply Hin|]. now split.
Qed.

Lemma image_src_is_the_saved_name_drive :
  exists pairs : list (string * string),
    "<img src=" ++ dquote ++ "pasteHTML-7.png" ++ dquote ++ " alt=" ++ dquote
    ++ "a" ++ dquote ++ ">"
    = "<img"
      ++ String.concat ""
           (map (fun p => " " ++ fst p ++ "=" ++ dquote
                          ++ cgi_escape (snd p) ++ dquote) pairs)
      ++ ">"
    /\ NoDup (map fst pairs)
    /\ In ("src", "pasteHTML-7.png") pairs
    /\ @nil string = [] /\ ["bytes"] = ["bytes"].
Proof.
  exact (@image_src_is_the_saved_name drive
           [("src", Some "file:///C:\a.png"); ("alt", Some "a")]
           "file:///C:\a.png" _ [] ["bytes"] eq_refl eq_refl).
Defined.

(** ** Angle brackets inside a start tag *)

Lemma no_char_append bad (a b : string) :
  no_char bad (a ++ b) = no_char bad a && no_char bad b.
Proof.
  induction a as [|c a IH]; [reflexivity|].
  cbn [append]. rewrite !no_char_cons, IH. now rewrite andb_assoc.
Qed.

Lemma allowed_attribute_no_bracket k :
  mem k _allowedAttributes = true ->
  no_char (fun c => is_char "<" c || is_char ">" c) k = true.
Proof.
  intros H. apply mem_In in H. simpl in H.
  repeat (destruct H as [<-|H]; [reflexivity|]). destruct H.
Qed.

(** X14.  No angle bracket inside a start tag.  The text of a start tag
    is '<', the tag name as the tokenizer gave it, the attributes and '>',
    and the attributes contain neither '<' nor '>': the names are those of
    the whitelist and every value went through cgi.escape, so no kept
    attribute value can end its tag or open another one.  (The double
    quote is not escaped.) *)
Theorem start_tag_has_no_inner_bracket :
  forall env tag attrs text tips images,
    starttag_text env tag attrs = Ok (text, tips, images) ->
    exists attrStr,
      text = "<" ++ tag ++ attrStr ++ ">"
      /\ no_char (fun c => is_char "<" c || is_char ">" c) attrStr = true.
Proof.
  intros env tag attrs text tips images H. unfold starttag_text in H.
  destruct (sanitize_attributes tag attrs) as [d|e] eqn:Hd; [|discriminate].
  cbn [bind] in H.
  destruct (cure_image env tag d) as [[[d' tips'] images']|e] eqn:Hcure; [|discriminate].
  cbn [bind] in H.
  destruct (attr_string d') as [attrStr|e] eqn:Hstr; [|discriminate].
  cbn [bind] in H. inversion H; subst; clear H.
  exists attrStr. split; [reflexivity|].
  assert (Hkeys : forall k, In k (keys d') -> mem k _allowedAttributes = true).
  { intros k. eapply attribute_names_whitelisted; eauto. }
  destruct (attr_string_pairs _ Hstr) as [pairs [Hpairs ->]].
  rewrite Hpairs in Hkeys. unfold keys in Hkeys. rewrite map_map in Hkeys.
  cbn [fst] in Hkeys. clear Hpairs Hstr Hcure Hd.
  induction pairs as [|p pairs IH]; [reflexivity|].
  cbn [map]. rewrite concat_cons, !no_char_append.
  rewrite IH by (intros k Hk; apply Hkeys; now right).
  rewrite (allowed_attribute_no_bracket (fst p)) by (apply Hkeys; now left).
  rewrite cgi_escape_no_bracket. reflexivity.
Qed.

Lemma start_tag_has_no_inner_bracket_title :
  exists attrStr,
    "<a title=" ++ dquote ++ "&lt;b&gt; &amp; " ++ dquote ++ ">"
    = "<" ++ "a" ++ attrStr ++ ">"
    /\ no_char (fun c => is_char "<" c || is_char ">" c) attrStr = true.
Proof.
  exact (@start_tag_has_no_inner_bracket unplugged "a"
           [("title", Some "<b> & ")] _ [] [] eq_refl).
Defined.
